(* ===================================================================== *)
(* ChatGPT Navigator content script (latest revision): the scanner, the   *)
(* per-conversation seen registry, the sidebar and the readiness poll,    *)
(* embedded as functions on an explicit page state.                       *)
(* ===================================================================== *)

From Stdlib Require Import ZArith NArith Ascii String.
From stdpp Require Import gmap strings list fin_maps sorting.

#[local] Set Warnings "-clear-no-such-hyp".

Local Open Scope N_scope.

(* --------------------------------------------------------------------- *)
(* JavaScript strings: sequences of UTF-16 code units                     *)
(* --------------------------------------------------------------------- *)

Module Js.

(* A JS string is its sequence of code units; [length], [slice] and
   [charCodeAt] all count code units. *)
Abbreviation jsstring := (list N).

(* String literals of the source, written with ASCII characters. *)
Definition lit (s : string) : jsstring :=
  (λ a, N_of_ascii a) <$> list_ascii_of_string s.

(* s1 === s2 *)
Fixpoint eqb (s1 s2 : jsstring) : bool :=
  match s1, s2 with
  | [], [] => true
  | c1 :: r1, c2 :: r2 => N.eqb c1 c2 && eqb r1 r2
  | _, _ => false
  end.

(* s.startsWith(p) *)
Fixpoint startsWith (s p : jsstring) {struct p} : bool :=
  match p, s with
  | [], _ => true
  | c :: p', d :: s' => N.eqb c d && startsWith s' p'
  | _ :: _, [] => false
  end.

(* s.slice(0, n) for a non-negative n *)
Definition slice0 (s : jsstring) (n : nat) : jsstring := take n s.

(* The code units matched by the regular-expression class \s, which are also
   the ones String.prototype.trim strips: WhiteSpace and LineTerminator. *)
Definition isWhiteSpace (c : N) : bool :=
  ((9 <=? c) && (c <=? 13)) || (c =? 32) || (c =? 160) || (c =? 5760)
  || ((8192 <=? c) && (c <=? 8202)) || (c =? 8232) || (c =? 8233)
  || (c =? 8239) || (c =? 8287) || (c =? 12288) || (c =? 65279).

Fixpoint trimStart (s : jsstring) : jsstring :=
  match s with
  | [] => []
  | c :: r => if isWhiteSpace c then trimStart r else s
  end.

Definition trimEnd (s : jsstring) : jsstring := rev (trimStart (rev s)).

(* s.trim() *)
Definition trim (s : jsstring) : jsstring := trimEnd (trimStart s).

(* s.replace(/\s+/g, " "): every maximal run of whitespace becomes one
   space; [inRun] tells that the previous unit belonged to the current run. *)
Fixpoint replaceWsRuns (inRun : bool) (s : jsstring) : jsstring :=
  match s with
  | [] => []
  | c :: r =>
      if isWhiteSpace c
      then (if inRun then replaceWsRuns true r else 32 :: replaceWsRuns true r)
      else c :: replaceWsRuns false r
  end.

Definition collapseWhitespace (s : jsstring) : jsstring := replaceWsRuns false s.

(* s.split(sep) for a one-unit separator: the pieces between separators. *)
Fixpoint splitOn (sep : N) (cur : jsstring) (s : jsstring) : list jsstring :=
  match s with
  | [] => [rev cur]
  | c :: r => if c =? sep then rev cur :: splitOn sep [] r
              else splitOn sep (c :: cur) r
  end.

Definition split (sep : N) (s : jsstring) : list jsstring :=
  match s with
  | [] => [[]]
  | _ => splitOn sep [] s
  end.

(* arr.indexOf(x) on an array of strings; None stands for -1. *)
Fixpoint indexOf (x : jsstring) (arr : list jsstring) : option nat :=
  match arr with
  | [] => None
  | y :: r => if eqb y x then Some 0%nat else S <$> indexOf x r
  end.

(* ToInt32: the value every operand of a bitwise operator is wrapped to. *)
Definition toInt32 (z : Z) : Z := ((z + 2 ^ 31) mod 2 ^ 32 - 2 ^ 31)%Z.

(* x >>> 0 *)
Definition toUint32 (z : Z) : N := Z.to_N (z mod 2 ^ 32)%Z.

Definition hexDigit (d : N) : N :=
  if d <? 10 then 48 + d else 87 + d.   (* '0'..'9', 'a'..'f' *)

Fixpoint hexDigits (fuel : nat) (n : N) (acc : jsstring) : jsstring :=
  match fuel with
  | O => acc
  | S f => if n =? 0 then acc
           else hexDigits f (n / 16) (hexDigit (n mod 16) :: acc)
  end.

(* n.toString(16) for a non-negative integer; the number of bits of [n]
   bounds the number of its hexadecimal digits. *)
Definition toString16 (n : N) : jsstring :=
  if n =? 0 then [48] else hexDigits (N.size_nat n) n [].

End Js.

Import Js.

(* --------------------------------------------------------------------- *)
(* Hash and text normalisation                                           *)
(* --------------------------------------------------------------------- *)

(* One round of the loop of strHashHex: h = (h * 33) ^ str.charCodeAt(i).
   The product is exact (|h| < 2^31), the xor wraps both operands to int32. *)
Definition hashStep (h : Z) (c : N) : Z :=
  Z.lxor (toInt32 (h * 33)) (toInt32 (Z.of_N c)).

(* strHashHex: djb2-like hash, rendered in hexadecimal. *)
Definition strHashHex (str : jsstring) : jsstring :=
  toString16 (toUint32 (fold_left hashStep str 5381%Z)).

(* location.origin and location.pathname of the host page *)
Record Location := mkLocation { origin : jsstring; pathname : jsstring }.

(* getConversationKey: the path segment after "chat", else origin + pathname.
   Reading location never throws here, so the catch branch is dead. *)
Definition getConversationKey (loc : Location) : jsstring :=
  let p := pathname loc in
  let parts := filter (λ s, s ≠ []) (split 47 p) in
  match indexOf (lit "chat") parts with
  | Some chatIdx =>
      match parts !! (chatIdx + 1)%nat with
      | Some k => k
      | None => origin loc ++ p
      end
  | None => origin loc ++ p
  end.

(* --------------------------------------------------------------------- *)
(* The page: host elements, the injected controls, the script's state     *)
(* --------------------------------------------------------------------- *)

(* An element of the host page, with the attributes the script reads or
   writes. *)
Record Node := mkNode {
  tagName : jsstring;                (* lower-case tag name *)
  roleAttr : option jsstring;        (* role *)
  className : jsstring;              (* class *)
  testId : option jsstring;          (* data-testid *)
  innerText : option jsstring;       (* undefined on elements without it *)
  navSignature : option jsstring;    (* data-nav-signature, null when absent *)
  nodeId : jsstring                  (* id, empty when unset *)
}.

(* The objects pushed by getAllMessagesForCurrentConv; [element] is the
   reference to the node, kept as its position in the page. *)
Record Item := mkItem {
  signature : jsstring;
  id : jsstring;
  text : jsstring;
  norm : jsstring;
  rawText : jsstring;
  element : nat
}.

(* Children of #chatgpt-navigator-list: the placeholder or a .nav-item with
   its DOM id, its label and the item its click handler closes over. *)
Inductive Entry :=
| NavEmpty
| NavItem (itemDomId : jsstring) (label : jsstring) (q : Item).

(* sidebar.style.display: unset until the first toggle *)
Inductive Display := DisplayUnset | DisplayBlock | DisplayNone.

Record Sidebar := mkSidebar { display : Display; navList : list Entry }.

Inductive Console :=
| LogLoaded
| LogRootFound
| WarnNoRoot
| LogOpened (n : nat)
| LogAppended (n : nat)
| LogDetected (n : nat)
| LogInitialMark (n : nat) (convKey : jsstring)
| LogConvChanged (old cur : jsstring).

Record State := mkState {
  location : Location;
  page : list Node;                         (* host elements, document order *)
  convSeen : gmap jsstring (gset jsstring);  (* const convSeen = new Map() *)
  toggleBtn : option bool;                   (* #cgpn-toggle and aria-expanded *)
  sidebar : option Sidebar;                  (* #chatgpt-navigator *)
  styleInjected : bool;                      (* #chatgpt-navigator-style *)
  console : list Console;
  readyTimer : bool;                         (* the 250ms interval is live *)
  attempts : nat;
  installed : bool;       (* document listeners, observer and 800ms interval *)
  debouncePending : bool;                    (* observer._timeout is armed *)
  lastConv : jsstring
}.

Definition READY_POLL_MS : nat := 250.
Definition MAX_ATTEMPTS : nat := 40.

Definition setPage (p : list Node) (st : State) : State :=
  mkState (location st) p (convSeen st) (toggleBtn st) (sidebar st)
    (styleInjected st) (console st) (readyTimer st) (attempts st)
    (installed st) (debouncePending st) (lastConv st).

Definition setLocation (l : Location) (st : State) : State :=
  mkState l (page st) (convSeen st) (toggleBtn st) (sidebar st)
    (styleInjected st) (console st) (readyTimer st) (attempts st)
    (installed st) (debouncePending st) (lastConv st).

Definition setConvSeen (m : gmap jsstring (gset jsstring)) (st : State) : State :=
  mkState (location st) (page st) m (toggleBtn st) (sidebar st)
    (styleInjected st) (console st) (readyTimer st) (attempts st)
    (installed st) (debouncePending st) (lastConv st).

Definition setToggleBtn (b : option bool) (st : State) : State :=
  mkState (location st) (page st) (convSeen st) b (sidebar st)
    (styleInjected st) (console st) (readyTimer st) (attempts st)
    (installed st) (debouncePending st) (lastConv st).

Definition setSidebar (s : option Sidebar) (st : State) : State :=
  mkState (location st) (page st) (convSeen st) (toggleBtn st) s
    (styleInjected st) (console st) (readyTimer st) (attempts st)
    (installed st) (debouncePending st) (lastConv st).

Definition setStyleInjected (b : bool) (st : State) : State :=
  mkState (location st) (page st) (convSeen st) (toggleBtn st) (sidebar st)
    b (console st) (readyTimer st) (attempts st)
    (installed st) (debouncePending st) (lastConv st).

Definition consoleLog (c : Console) (st : State) : State :=
  mkState (location st) (page st) (convSeen st) (toggleBtn st) (sidebar st)
    (styleInjected st) (console st ++ [c]) (readyTimer st) (attempts st)
    (installed st) (debouncePending st) (lastConv st).

Definition setReadyTimer (b : bool) (st : State) : State :=
  mkState (location st) (page st) (convSeen st) (toggleBtn st) (sidebar st)
    (styleInjected st) (console st) b (attempts st)
    (installed st) (debouncePending st) (lastConv st).

Definition setAttempts (n : nat) (st : State) : State :=
  mkState (location st) (page st) (convSeen st) (toggleBtn st) (sidebar st)
    (styleInjected st) (console st) (readyTimer st) n
    (installed st) (debouncePending st) (lastConv st).

Definition setInstalled (b : bool) (st : State) : State :=
  mkState (location st) (page st) (convSeen st) (toggleBtn st) (sidebar st)
    (styleInjected st) (console st) (readyTimer st) (attempts st)
    b (debouncePending st) (lastConv st).

Definition setDebouncePending (b : bool) (st : State) : State :=
  mkState (location st) (page st) (convSeen st) (toggleBtn st) (sidebar st)
    (styleInjected st) (console st) (readyTimer st) (attempts st)
    (installed st) b (lastConv st).

Definition setLastConv (k : jsstring) (st : State) : State :=
  mkState (location st) (page st) (convSeen st) (toggleBtn st) (sidebar st)
    (styleInjected st) (console st) (readyTimer st) (attempts st)
    (installed st) (debouncePending st) k.

(* The script as it is when it starts on a page: nothing injected, an empty
   registry, the readiness interval armed with attempts = 0. *)
Definition initialState (loc : Location) (p : list Node) : State :=
  mkState loc p ∅ None None false [LogLoaded] true 0 false false [].

(* --------------------------------------------------------------------- *)
(* Seen registry                                                           *)
(* --------------------------------------------------------------------- *)

(* ensureConvSet, as the effect on the map: a missing key gets a new empty
   Set, an existing one is left alone. *)
Definition ensureConvSet (key : jsstring)
    (reg : gmap jsstring (gset jsstring)) : gmap jsstring (gset jsstring) :=
  match reg !! key with
  | Some _ => reg
  | None => <[key := ∅]> reg
  end.

(* seen.add(sig), where [seen] is the Set object the map holds under [key]:
   the object is mutated in place, the map keeps pointing at it. *)
Definition seenAdd (key sig : jsstring)
    (reg : gmap jsstring (gset jsstring)) : gmap jsstring (gset jsstring) :=
  alter (λ seen, seen ∪ {[sig]}) key reg.

(* seen.has(sig) *)
Definition seenHas (key sig : jsstring)
    (reg : gmap jsstring (gset jsstring)) : bool :=
  match reg !! key with
  | Some seen => bool_decide (sig ∈ seen)
  | None => false
  end.

(* items.forEach((it) => seen.add(it.signature)) *)
Definition markSeen (key : jsstring) (items : list Item)
    (reg : gmap jsstring (gset jsstring)) : gmap jsstring (gset jsstring) :=
  fold_left (λ r it, seenAdd key (signature it) r) items reg.

(* The signatures recorded for a key; no set is the same as an empty one
   for every reader of the registry. *)
Definition seenOf (key : jsstring)
    (reg : gmap jsstring (gset jsstring)) : gset jsstring :=
  default ∅ (reg !! key).

(* --------------------------------------------------------------------- *)
(* Near-duplicate merge                                                    *)
(* --------------------------------------------------------------------- *)

(* it.norm.slice(0, 200) *)
Definition matchKey (it : Item) : jsstring := slice0 (norm it) 200.

(* the inner loop over seenNorms *)
Definition isDuplicate (seenNorms : list jsstring) (key : jsstring) : bool :=
  existsb (λ s, eqb s key || startsWith s key || startsWith key s) seenNorms.

(* seenNorms.add(key) on a Set kept in insertion order *)
Definition normsAdd (key : jsstring) (seenNorms : list jsstring) : list jsstring :=
  if existsb (λ s, eqb s key) seenNorms then seenNorms else seenNorms ++ [key].

(* one round of the outer loop on (ordered, seenNorms) *)
Definition uniqueStep (acc : list Item * list jsstring) (it : Item)
    : list Item * list jsstring :=
  let key := matchKey it in
  if isDuplicate (acc.2) key then acc
  else (acc.1 ++ [it], normsAdd key (acc.2)).

Definition uniqueLoop (items : list Item) (acc : list Item * list jsstring)
    : list Item * list jsstring :=
  fold_left uniqueStep items acc.

Definition uniqueOrdered (items : list Item) : list Item :=
  (uniqueLoop items ([], [])).1.

(* --------------------------------------------------------------------- *)
(* Document queries                                                        *)
(* --------------------------------------------------------------------- *)

(* s.includes(sub): some suffix of s starts with sub *)
Fixpoint includes (s sub : jsstring) : bool :=
  startsWith s sub ||
  match s with
  | [] => false
  | _ :: r => includes r sub
  end.

(* document.querySelector("main") || document.querySelector('[role="main"]')
   || document.querySelector('div[class*="chat"]'), as "is there one" *)
Definition hasChatRoot (p : list Node) : bool :=
  existsb (λ n, eqb (tagName n) (lit "main")) p
  || existsb (λ n, match roleAttr n with
                   | Some r => eqb r (lit "main")
                   | None => false
                   end) p
  || existsb (λ n, eqb (tagName n) (lit "div")
                   && includes (className n) (lit "chat")) p.

(* the selector [data-testid="user-message"] *)
Definition isUserMessage (n : Node) : bool :=
  match testId n with
  | Some t => eqb t (lit "user-message")
  | None => false
  end.

(* Ids of the elements the script injected.  The host page is taken not to
   use the fixed ids of the toggle, the panel and the style block. *)
Definition entryId (e : Entry) : option jsstring :=
  match e with
  | NavEmpty => None
  | NavItem i _ _ => Some i
  end.

Definition injectedIds (st : State) : list jsstring :=
  match toggleBtn st with Some _ => [lit "cgpn-toggle"] | None => [] end
  ++ match sidebar st with
     | Some sb =>
         [lit "chatgpt-navigator"; lit "chatgpt-navigator-header";
          lit "chatgpt-navigator-title"; lit "chatgpt-navigator-close";
          lit "chatgpt-navigator-list"; lit "chatgpt-navigator-footer"]
         ++ omap entryId (navList sb)
     | None => []
     end
  ++ (if styleInjected st then [lit "chatgpt-navigator-style"] else []).

(* document.getElementById(i) is not null: some element of the document,
   host or injected, has the non-empty id [i]. *)
Definition hasElementById (st : State) (i : jsstring) : bool :=
  match i with
  | [] => false
  | _ => existsb (λ n, eqb (nodeId n) i) (page st)
         || existsb (λ j, eqb j i) (injectedIds st)
  end.

Section Navigator.

(* String.prototype.toLowerCase is a builtin of the host, defined by the
   Unicode case tables; the script only relies on it being a function. *)
Variable toLowerCase : jsstring → jsstring.

(* normalizeText: collapse whitespace, trim, lower-case. *)
Definition normalizeText (s : jsstring) : jsstring :=
  match s with
  | [] => []
  | _ => toLowerCase (trim (collapseWhitespace s))
  end.

(* --------------------------------------------------------------------- *)
(* Scanner                                                                 *)
(* --------------------------------------------------------------------- *)

(* let signature = node.getAttribute("data-nav-signature");
   if (!signature) signature = "s_" + strHashHex(norm); *)
Definition signatureFor (node : Node) (norm : jsstring) : jsstring :=
  match navSignature node with
  | Some (c :: s) => c :: s
  | _ => lit "s_" ++ strHashHex norm
  end.

(* if (!node.id) node.id = `cgpn-${convKey}-${signature}`; then node.id *)
Definition idFor (convKey : jsstring) (node : Node) (sig : jsstring) : jsstring :=
  match nodeId node with
  | [] => lit "cgpn-" ++ convKey ++ lit "-" ++ sig
  | c :: i => c :: i
  end.

(* raw.length > 80 ? raw.slice(0, 80) + "…" : raw *)
Definition previewText (raw : jsstring) : jsstring :=
  if (80 <? length raw)%nat then slice0 raw 80 ++ [8230] else raw.

(* The body of the forEach callback of getAllMessagesForCurrentConv on one
   node: the item pushed (if any) and the node with the attributes set. *)
Definition scanNode (convKey : jsstring) (idx : nat) (node : Node)
    : option Item * Node :=
  let raw := trim (default [] (innerText node)) in
  match raw with
  | [] => (None, node)
  | _ =>
      let norm := slice0 (normalizeText raw) 400 in
      let sig := signatureFor node norm in
      let nid := idFor convKey node sig in
      (Some (mkItem sig nid (previewText raw) norm raw idx),
       mkNode (tagName node) (roleAttr node) (className node) (testId node)
              (innerText node) (Some sig) nid)
  end.

(* The forEach over the nodes matched by the selector, in document order;
   [idx] is the position of the first node of [p] in the whole page. *)
Fixpoint scanFrom (convKey : jsstring) (idx : nat) (p : list Node)
    : list Item * list Node :=
  match p with
  | [] => ([], [])
  | n :: rest =>
      let r := scanFrom convKey (S idx) rest in
      if isUserMessage n then
        let on := scanNode convKey idx n in
        (match on.1 with Some it => it :: r.1 | None => r.1 end, on.2 :: r.2)
      else (r.1, n :: r.2)
  end.

(* getAllMessagesForCurrentConv: the items, and the state with the page as
   the scan leaves it. *)
Definition getAllMessagesForCurrentConv (st : State) : list Item * State :=
  let convKey := getConversationKey (location st) in
  let r := scanFrom convKey 0 (page st) in
  (r.1, setPage r.2 st).

(* --------------------------------------------------------------------- *)
(* Sidebar                                                                 *)
(* --------------------------------------------------------------------- *)

Definition ensureToggleButton (st : State) : State :=
  match toggleBtn st with
  | Some _ => st
  | None => setToggleBtn (Some false) st
  end.

Definition ensureSidebar (st : State) : State :=
  match sidebar st with
  | Some _ => st
  | None => setSidebar (Some (mkSidebar DisplayUnset [])) st
  end.

Definition addStyles (st : State) : State :=
  if styleInjected st then st else setStyleInjected true st.

(* list.innerHTML = "" and list.appendChild, on the panel when it exists *)
Definition setNavList (l : list Entry) (st : State) : State :=
  match sidebar st with
  | Some sb => setSidebar (Some (mkSidebar (display sb) l)) st
  | None => st
  end.

Definition appendEntry (e : Entry) (st : State) : State :=
  match sidebar st with
  | Some sb => setSidebar (Some (mkSidebar (display sb) (navList sb ++ [e]))) st
  | None => st
  end.

Definition setDisplay (d : Display) (st : State) : State :=
  match sidebar st with
  | Some sb => setSidebar (Some (mkSidebar d (navList sb))) st
  | None => st
  end.

(* const itemDomId = "cgpn-item-" + q.signature *)
Definition itemDomIdOf (sig : jsstring) : jsstring := lit "cgpn-item-" ++ sig.

(* item.textContent = q.text || "Question" *)
Definition labelOf (q : Item) : jsstring :=
  match text q with
  | [] => lit "Question"
  | c :: t => c :: t
  end.

(* one round of the for loop of updateSidebar *)
Definition renderItem (st : State) (q : Item) : State :=
  let itemDomId := itemDomIdOf (signature q) in
  if hasElementById st itemDomId then st
  else appendEntry (NavItem itemDomId (labelOf q) q) st.

Definition updateSidebar (items : list Item) (append : bool) (st : State) : State :=
  let st := ensureSidebar st in
  let st := if append then st else setNavList [] st in
  if (length items =? 0)%nat && negb append
  then appendEntry NavEmpty st
  else fold_left renderItem items st.

Definition toggleSidebar (show : bool) (st : State) : State :=
  let st := ensureToggleButton st in
  let st := ensureSidebar st in
  let st := addStyles st in
  if show then
    let st := setDisplay DisplayBlock st in
    let st := setToggleBtn (Some true) st in
    let r := getAllMessagesForCurrentConv st in
    let unique := uniqueOrdered r.1 in
    let convKey := getConversationKey (location r.2) in
    let st := setConvSeen (markSeen convKey unique
                             (ensureConvSet convKey (convSeen r.2))) r.2 in
    let st := updateSidebar unique false st in
    consoleLog (LogOpened (length unique)) st
  else
    let st := setDisplay DisplayNone st in
    let st := setToggleBtn (Some false) st in
    setNavList [] st.

Definition sidebarVisible (st : State) : bool :=
  match sidebar st with
  | Some sb => match display sb with DisplayBlock => true | _ => false end
  | None => false
  end.

(* appendNewMessagesForCurrentConv; the returned count is dropped by its
   only caller. *)
Definition appendNewMessagesForCurrentConv (st : State) : State :=
  let convKey := getConversationKey (location st) in
  let st := setConvSeen (ensureConvSet convKey (convSeen st)) st in
  let r := getAllMessagesForCurrentConv st in
  let st := r.2 in
  let newItems :=
    filter (λ it, seenHas convKey (signature it) (convSeen st) = false) r.1 in
  match newItems with
  | [] => st
  | _ =>
      let merged := uniqueOrdered newItems in
      let st := setConvSeen (markSeen convKey merged (convSeen st)) st in
      if sidebarVisible st
      then consoleLog (LogAppended (length merged)) (updateSidebar merged true st)
      else consoleLog (LogDetected (length merged)) st
  end.

Definition initialSilentMark (st : State) : State :=
  let convKey := getConversationKey (location st) in
  let st := setConvSeen (ensureConvSet convKey (convSeen st)) st in
  let r := getAllMessagesForCurrentConv st in
  let st := setConvSeen (markSeen convKey r.1 (convSeen r.2)) r.2 in
  consoleLog (LogInitialMark (length r.1) convKey) st.

(* --------------------------------------------------------------------- *)
(* Timers and listeners of setupObserverAndHandlers                        *)
(* --------------------------------------------------------------------- *)

(* the callback of the 250ms readiness interval *)
Definition readyTick (st : State) : State :=
  let chatRoot := hasChatRoot (page st) in
  let st := setAttempts (S (attempts st)) st in
  if chatRoot then
    let st := setReadyTimer false st in
    let st := consoleLog LogRootFound st in
    let st := ensureToggleButton st in
    let st := setInstalled true st in
    let st := initialSilentMark st in
    setLastConv (getConversationKey (location st)) st
  else if (MAX_ATTEMPTS <? attempts st)%nat then
    consoleLog WarnNoRoot (setReadyTimer false st)
  else st.

(* the callback of the 800ms interval *)
Definition convTick (st : State) : State :=
  let cur := getConversationKey (location st) in
  if eqb cur (lastConv st) then st
  else
    let st := consoleLog (LogConvChanged (lastConv st) cur) st in
    let st := setLastConv cur st in
    let st := initialSilentMark st in
    setNavList [] st.

(* What can happen on the page: the timers fire, the host mutates its DOM
   or navigates, the user clicks or presses a key. *)
Inductive Event :=
| ReadyTick                         (* readiness interval fires *)
| Mutation                          (* MutationObserver callback *)
| DebounceFire                      (* the debounce timeout fires *)
| ConvTick                          (* conversation interval fires *)
| ClickToggle                       (* click on #cgpn-toggle *)
| ClickClose                        (* click on #chatgpt-navigator-close *)
| ClickOutside                      (* click outside panel and toggle *)
| KeyDown (escape : bool)
| HostRender (p : list Node)        (* the host page replaces its elements *)
| HostNavigate (loc : Location).     (* in-page navigation *)

Definition handle (ev : Event) (st : State) : State :=
  match ev with
  | ReadyTick => if readyTimer st then readyTick st else st
  | Mutation => if installed st then setDebouncePending true st else st
  | DebounceFire =>
      if debouncePending st
      then appendNewMessagesForCurrentConv (setDebouncePending false st)
      else st
  | ConvTick => if installed st then convTick st else st
  | ClickToggle =>
      match toggleBtn st with
      | Some expanded => toggleSidebar (negb expanded) st
      | None => st
      end
  | ClickClose =>
      match sidebar st with
      | Some _ => toggleSidebar false st
      | None => st
      end
  | ClickOutside =>
      if installed st then
        match sidebar st, toggleBtn st with
        | Some _, Some _ => toggleSidebar false st
        | _, _ => st
        end
      else st
  | KeyDown escape =>
      if installed st && escape then toggleSidebar false st else st
  | HostRender p => setPage p st
  | HostNavigate loc => setLocation loc st
  end.

(* the state after a sequence of events, oldest first *)
Definition run (evs : list Event) (st : State) : State :=
  fold_left (λ s ev, handle ev s) evs st.

(* --------------------------------------------------------------------- *)
(* Names for what the operations compute                                   *)
(* --------------------------------------------------------------------- *)

Definition displayOf (st : State) : Display :=
  match sidebar st with
  | Some sb => display sb
  | None => DisplayUnset
  end.

(* the items of a scan of the current page *)
Definition scannedItems (st : State) : list Item :=
  (scanFrom (getConversationKey (location st)) 0 (page st)).1.

(* the page as a scan leaves it *)
Definition scannedPage (st : State) : list Node :=
  (scanFrom (getConversationKey (location st)) 0 (page st)).2.

(* the items the mutation-driven detection treats as new, and what is left
   of them after the merge *)
Definition unseenItems (st : State) : list Item :=
  filter (λ it, seenHas (getConversationKey (location st)) (signature it)
                  (ensureConvSet (getConversationKey (location st)) (convSeen st)) = false)
         (scannedItems st).

Definition detectedItems (st : State) : list Item := uniqueOrdered (unseenItems st).

End Navigator.

(* Lower-casing restricted to A-Z; it agrees with the builtin on strings of
   ASCII code units and is used to run the script on such inputs. *)
Definition asciiLower (s : jsstring) : jsstring :=
  (λ c, if (65 <=? c) && (c <=? 90) then c + 32 else c) <$> s.

(* the children of #chatgpt-navigator-list, none while there is no panel *)
Definition navListOf (st : State) : list Entry :=
  match sidebar st with
  | Some sb => navList sb
  | None => []
  end.

(* the signature of the item behind a rendered entry *)
Definition entrySig (e : Entry) : option jsstring :=
  match e with
  | NavEmpty => None
  | NavItem _ _ q => Some (signature q)
  end.

Definition entrySigs (l : list Entry) : list jsstring := omap entrySig l.

(* --------------------------------------------------------------------- *)
(* Concrete pages used to run the script                                   *)
(* --------------------------------------------------------------------- *)

(* <div data-testid="user-message">txt</div> as the host renders it *)
Definition userMessageNode (txt : jsstring) : Node :=
  mkNode (lit "div") None [] (Some (lit "user-message")) (Some txt) None [].

(* the <main> element the readiness poll waits for *)
Definition mainNode : Node :=
  mkNode (lit "main") None [] None (Some []) None [].

Definition locA : Location := mkLocation (lit "https://chatgpt.com") (lit "/c/1").
Definition locB : Location := mkLocation (lit "https://chatgpt.com") (lit "/c/2").

(* the page of the example of the specification *)
Definition helloPage : list Node :=
  [userMessageNode (lit "Hello world"); userMessageNode (lit "hello   world ")].

(* two messages, the first a prefix of the second *)
Definition hiPage : list Node :=
  [userMessageNode (lit "hi"); userMessageNode (lit "hi there")].

(* A message node that was scanned when it read "hello" and whose text the
   host then changed to "hi" (an edited message), next to a new "hi". *)
Definition editedNode : Node :=
  mkNode (lit "div") None [] (Some (lit "user-message")) (Some (lit "hi"))
    (Some (lit "s_" ++ strHashHex (lit "hello")))
    (lit "cgpn-https://chatgpt.com/c/1-s_" ++ strHashHex (lit "hello")).

Definition editedPage : list Node := [editedNode; userMessageNode (lit "hi")].

(* two texts of 201 units that agree on the first 200 *)
Definition longText (last : N) : jsstring := replicate 200 97 ++ [last].

Definition longPage : list Node :=
  [userMessageNode (longText 98); userMessageNode (longText 99)].

(* the node carries no usable data-nav-signature: getAttribute gives null
   or the empty string, both falsy *)
Definition hasNoSignature (n : Node) : bool :=
  match navSignature n with
  | Some (_ :: _) => false
  | _ => true
  end.

(* A visit to conversation 1 showing "hi", then to conversation 2, then
   back to conversation 1 before its messages are rendered again; the last
   conversation tick is left to be fired. *)
Definition revisitEvents : list Event :=
  [ReadyTick; HostNavigate locB; HostRender [mainNode]; ConvTick;
   HostNavigate locA].

Definition revisitState : State :=
  run asciiLower revisitEvents
    (initialState locA [mainNode; userMessageNode (lit "hi")]).

Definition isReadyTick (ev : Event) : bool :=
  match ev with
  | ReadyTick => true
  | _ => false
  end.

(* how many times the readiness interval was due in a sequence of events *)
Definition countTicks (evs : list Event) : nat :=
  length (filter (λ ev, isReadyTick ev = true) evs).

(* the script after the poll gave up: one warning, nothing injected, no
   listener, no observer, an empty registry *)
Definition gaveUp (st : State) : Prop :=
  readyTimer st = false ∧ attempts st = S MAX_ATTEMPTS
  ∧ installed st = false ∧ debouncePending st = false
  ∧ toggleBtn st = None ∧ sidebar st = None ∧ styleInjected st = false
  ∧ convSeen st = ∅ ∧ console st = [LogLoaded; WarnNoRoot].

(* the script while the poll is still running *)
Definition polling (st : State) : Prop :=
  readyTimer st = true ∧ (attempts st ≤ MAX_ATTEMPTS)%nat
  ∧ installed st = false ∧ debouncePending st = false
  ∧ toggleBtn st = None ∧ sidebar st = None ∧ styleInjected st = false
  ∧ convSeen st = ∅ ∧ console st = [LogLoaded].

(* the script once the chat root was found *)
Definition wired (st : State) : Prop :=
  readyTimer st = false ∧ (attempts st ≤ S MAX_ATTEMPTS)%nat
  ∧ installed st = true ∧ is_Some (toggleBtn st).

(* the registry order: every set that exists still exists and has lost
   nothing *)
Definition regLe (reg1 reg2 : gmap jsstring (gset jsstring)) : Prop :=
  ∀ key seen, reg1 !! key = Some seen →
    ∃ seen', reg2 !! key = Some seen' ∧ seen ⊆ seen'.

(* the registry changed only under [key], and only by growing *)
Definition regStep (key : jsstring)
    (reg reg' : gmap jsstring (gset jsstring)) : Prop :=
  regLe reg reg' ∧ ∀ k, k ≠ key → reg' !! k = reg !! k.

(* --------------------------------------------------------------------- *)
(* Vocabulary of the statements                                            *)
(* --------------------------------------------------------------------- *)

(* the relation tested by the inner loop, on the keys *)
Definition prefixRelated (s key : jsstring) : Prop :=
  s = key ∨ key `prefix_of` s ∨ s `prefix_of` key.

(* seenNorms holds exactly the keys of the accepted items, in order *)
Definition keysOfAccepted (acc : list Item * list jsstring) : Prop := acc.2 = matchKey <$> acc.1.

(* the trimmed text the scanner reads off a node *)
Definition rawOf (node : Node) : jsstring := trim (default [] (innerText node)).

(* some host element carries the id *)
Definition pageHasId (p : list Node) (i : jsstring) : bool :=
  existsb (λ n, eqb (nodeId n) i) p.

(* some rendered entry carries the id *)
Definition listHasId (l : list Entry) (i : jsstring) : bool :=
  existsb (λ j, eqb j i) (omap entryId l).

(* the for loop of updateSidebar as a function of the host page and of the
   entries already in the list *)
Fixpoint renderEntries (p : list Node) (items : list Item) (l : list Entry)
    : list Entry :=
  match items with
  | [] => l
  | q :: rest =>
      let i := itemDomIdOf (signature q) in
      if pageHasId p i || listHasId l i then renderEntries p rest l
      else renderEntries p rest (l ++ [NavItem i (labelOf q) q])
  end.

(* the list a full rebuild leaves in the panel, from the conversation key
   and the host page *)
Definition openList (convKey : jsstring) (toLower : jsstring → jsstring)
    (p : list Node) : list Entry :=
  let r := scanFrom toLower convKey 0 p in
  let unique := uniqueOrdered r.1 in
  if (length unique =? 0)%nat then [NavEmpty]
  else renderEntries r.2 unique [].

(* entries carry the id derived from their item, and no signature twice *)
Definition entriesOk (l : list Entry) : Prop :=
  NoDup (entrySigs l) ∧
  ∀ i lbl q, NavItem i lbl q ∈ l → i = itemDomIdOf (signature q).


(* the three phases of the script, with the ticks counted *)
Definition phase (evs : list Event) (st : State) : Prop :=
  (polling st ∧ attempts st = countTicks evs)
  ∨ (gaveUp st ∧ (MAX_ATTEMPTS < countTicks evs)%nat)
  ∨ wired st.

(* --------------------------------------------------------------------- *)
(* Proof tools                                                             *)
(* --------------------------------------------------------------------- *)

(* projections of the state setters *)
Ltac state_simpl :=
  cbn [location page convSeen toggleBtn sidebar styleInjected console readyTimer
       attempts installed debouncePending lastConv
       setPage setLocation setConvSeen setToggleBtn setSidebar setStyleInjected
       consoleLog setReadyTimer setAttempts setInstalled setDebouncePending
       setLastConv fst snd display navList].

Ltac unfold_ops :=
  unfold toggleSidebar, appendNewMessagesForCurrentConv,
    initialSilentMark, getAllMessagesForCurrentConv,
    updateSidebar, ensureToggleButton, ensureSidebar, addStyles, setDisplay,
    setNavList, appendEntry, consoleLog, sidebarVisible,
    scannedItems, scannedPage, unseenItems, detectedItems, displayOf, navListOf.

(* --------------------------------------------------------------------- *)
(* Vocabulary of the further properties                                    *)
(* --------------------------------------------------------------------- *)

(* the 32-bit value strHashHex renders: h >>> 0 after the loop *)
Definition hash32 (str : jsstring) : N :=
  toUint32 (fold_left hashStep str 5381%Z).

(* '0'..'9' or 'a'..'f' *)
Definition isLowerHex (c : N) : bool :=
  ((48 <=? c) && (c <=? 57)) || ((97 <=? c) && (c <=? 102)).

(* reading a hexadecimal numeral back, what parseInt(s, 16) computes on
   lower-case digits *)
Definition hexDigitValue (c : N) : N := if c <? 58 then c - 48 else c - 87.

Definition hexValue (s : jsstring) : N :=
  fold_left (λ v c, 16 * v + hexDigitValue c) s 0.

(* the text normalizeText hands to toLowerCase *)
Definition collapsedText (s : jsstring) : jsstring := trim (collapseWhitespace s).

(* every whitespace unit is a space, and no space follows a space;
   [prevSpace] tells that the unit before the text was a space *)
Fixpoint singleSpaced (prevSpace : bool) (s : jsstring) : bool :=
  match s with
  | [] => true
  | c :: r =>
      if isWhiteSpace c then (c =? 32) && negb prevSpace && singleSpaced true r
      else singleSpaced false r
  end.

(* the text does not begin with whitespace *)
Definition startsClean (s : jsstring) : bool :=
  match s with
  | [] => true
  | c :: _ => negb (isWhiteSpace c)
  end.

(* no key of the list is equal to, a prefix of, or prefixed by a later one *)
Definition pairwiseUnrelated (keys : list jsstring) : Prop :=
  ∀ (i j : nat) (s t : jsstring),
    (i < j)%nat → keys !! i = Some s → keys !! j = Some t → ¬ prefixRelated s t.

(* aria-expanded on the toggle says whether the panel is displayed *)
Definition ariaAgrees (st : State) : Prop :=
  match sidebar st with
  | Some sb =>
      toggleBtn st = Some (match display sb with DisplayBlock => true | _ => false end)
  | None => True
  end.

(* every signature shown in the panel is recorded in some seen set *)
Definition shownAreSeen (st : State) : Prop :=
  ∀ s, s ∈ entrySigs (navListOf st) → ∃ key, s ∈ seenOf key (convSeen st).

(* --------------------------------------------------------------------- *)
(* The earlier, id-based revision of the scanner (same file)               *)
(* --------------------------------------------------------------------- *)

Module IdBased.

(* n.toString() for a non-negative integer below 10^21: decimal digits *)
Fixpoint decDigits (fuel : nat) (n : N) (acc : jsstring) : jsstring :=
  match fuel with
  | O => acc
  | S f => if n =? 0 then acc
           else decDigits f (n / 10) (48 + n mod 10 :: acc)
  end.

Definition toString10 (n : N) : jsstring :=
  if n =? 0 then [48] else decDigits (N.size_nat n) n [].

(* the units that separate the tokens of a class attribute *)
Definition isClassSpace (c : N) : bool :=
  (c =? 32) || (c =? 9) || (c =? 10) || (c =? 12) || (c =? 13).

(* el.classList: the tokens of the class attribute; [cur] is the token being
   read, reversed *)
Fixpoint classTokens (cur : jsstring) (s : jsstring) : list jsstring :=
  match s with
  | [] => match cur with [] => [] | _ => [rev cur] end
  | c :: r =>
      if isClassSpace c
      then match cur with [] => classTokens [] r | _ => rev cur :: classTokens [] r end
      else classTokens (c :: cur) r
  end.

(* the selector 'article, [role="listitem"], [role="article"],
   div[class*="message"], .chat-message' *)
Definition isFallback (n : Node) : bool :=
  eqb (tagName n) (lit "article")
  || match roleAttr n with
     | Some r => eqb r (lit "listitem") || eqb r (lit "article")
     | None => false
     end
  || (eqb (tagName n) (lit "div") && includes (className n) (lit "message"))
  || existsb (λ t, eqb t (lit "chat-message")) (classTokens [] (className n)).

(* (el.innerText || "").trim() *)
Definition trimmedText (n : Node) : jsstring := trim (default [] (innerText n)).

(* Which elements getAllMessages works on: the user-message elements when
   there is one, otherwise the fallback candidates with a non-empty text. *)
Definition selects (p : list Node) (n : Node) : bool :=
  if existsb isUserMessage p then isUserMessage n
  else isFallback n && match trimmedText n with [] => false | _ => true end.

(* The { id, text, element, rawText } objects of getAllMessages; [qelement]
   is the position of the element in the page. *)
Record Question := mkQuestion {
  qid : jsstring;
  qtext : jsstring;
  qelement : nat;
  qrawText : jsstring
}.

(* if (!msg.id) msg.id = "cgpn-question-" + Date.now() + "-" + index *)
Definition assignId (now : N) (index : nat) (n : Node) : Node :=
  match nodeId n with
  | [] => mkNode (tagName n) (roleAttr n) (className n) (testId n) (innerText n)
            (navSignature n)
            (lit "cgpn-question-" ++ toString10 now ++ lit "-"
             ++ toString10 (N.of_nat index))
  | _ :: _ => n
  end.

(* raw.length > 60 ? raw.slice(0, 60) + "…" : raw *)
Definition preview60 (raw : jsstring) : jsstring :=
  if (60 <? length raw)%nat then slice0 raw 60 ++ [8230] else raw.

(* The map over the selected elements and the filter on rawText, walking the
   page: [index] counts the selected elements met so far, [pos] the
   position in the page, [now] is what Date.now() returns during the call. *)
Fixpoint mapFrom (now : N) (sel : Node → bool) (index pos : nat) (p : list Node)
    : list Question * list Node :=
  match p with
  | [] => ([], [])
  | n :: rest =>
      if sel n then
        let n' := assignId now index n in
        let raw := trimmedText n' in
        let r := mapFrom now sel (S index) (S pos) rest in
        (match raw with
         | [] => r.1
         | _ => mkQuestion (nodeId n') (preview60 raw) pos raw :: r.1
         end,
         n' :: r.2)
      else
        let r := mapFrom now sel index (S pos) rest in
        (r.1, n :: r.2)
  end.

(* getAllMessages: the items and the page with the ids it assigned *)
Definition getAllMessages (now : N) (p : list Node) : list Question * list Node :=
  mapFrom now (selects p) 0 0 p.

(* getNewMessages, with the global seenKeys *)
Definition getNewMessages (now : N) (seenKeys : gset jsstring) (p : list Node)
    : list Question * list Node :=
  let r := getAllMessages now p in
  (filter (λ m, qid m ∉ seenKeys) r.1, r.2).

(* scanAndMarkAll: the items, the new seenKeys and the page *)
Definition scanAndMarkAll (now : N) (seenKeys : gset jsstring) (p : list Node)
    : list Question * gset jsstring * list Node :=
  let r := getAllMessages now p in
  (r.1, fold_left (λ seen m, seen ∪ {[qid m]}) r.1 seenKeys, r.2).

End IdBased.

(* the signature the scanner computes for a trimmed text:
   "s_" + strHashHex(normalizeText(raw).slice(0, 400)) *)
Definition computedSignature (toLower : jsstring → jsstring) (raw : jsstring)
    : jsstring :=
  lit "s_" ++ strHashHex (slice0 (normalizeText toLower raw) 400).

(* the element carries no signature, or the one computed from its present
   text *)
Definition signatureCurrent (toLower : jsstring → jsstring) (n : Node) : Prop :=
  hasNoSignature n = true
  ∨ navSignature n = Some (computedSignature toLower (rawOf n)).

(* ===================================================================== *)
(* The definitions on concrete inputs                                     *)
(* ===================================================================== *)

Example strHashHex_empty : strHashHex [] = lit "1505".
Proof. reflexivity. Qed.

Example strHashHex_a : strHashHex (lit "a") = lit "2b5c4".
Proof. vm_compute. reflexivity. Qed.

Example strHashHex_hello_world : strHashHex (lit "hello world") = lit "f8c65345".
Proof. vm_compute. reflexivity. Qed.

Example normalizeText_hello :
  normalizeText asciiLower (lit "hello   world ") = lit "hello world" ∧
  normalizeText asciiLower (lit "Hello world") = lit "hello world".
Proof. vm_compute. done. Qed.

Example getConversationKey_chat :
  getConversationKey (mkLocation (lit "https://x.org") (lit "/chat/abc/")) = lit "abc".
Proof. vm_compute. reflexivity. Qed.

Example getConversationKey_fallback :
  getConversationKey locA = lit "https://chatgpt.com/c/1".
Proof. vm_compute. reflexivity. Qed.

Example hasChatRoot_main :
  hasChatRoot [mainNode; userMessageNode (lit "hi")] = true
  ∧ hasChatRoot hiPage = false.
Proof. vm_compute. done. Qed.

Example open_hiPage_labels :
  (λ e, match e with NavItem _ lbl _ => lbl | NavEmpty => [] end)
    <$> navListOf (toggleSidebar asciiLower true (initialState locA hiPage))
  = [lit "hi"].
Proof. vm_compute. reflexivity. Qed.

Example open_empty_page_placeholder :
  navListOf (toggleSidebar asciiLower true (initialState locA [mainNode])) = [NavEmpty].
Proof. vm_compute. reflexivity. Qed.

(* ===================================================================== *)
(* Strings                                                                *)
(* ===================================================================== *)

Lemma eqb_eq (s1 s2 : jsstring) : eqb s1 s2 = true ↔ s1 = s2.
Proof.
  revert s2. induction s1 as [|c r IH]; intros [|d r2]; simpl; try done.
  rewrite andb_true_iff, N.eqb_eq, IH. split.
  - intros [-> ->]. done.
  - intros [= -> ->]. done.
Qed.

Lemma eqb_refl (s : jsstring) : eqb s s = true.
Proof. by apply eqb_eq. Qed.

Lemma startsWith_prefix (s p : jsstring) :
  startsWith s p = true ↔ p `prefix_of` s.
Proof.
  revert s. induction p as [|c p IH]; intros s; simpl.
  - split; [intros _; apply prefix_nil | done].
  - destruct s as [|d s].
    + split; [done | intros H; by apply prefix_nil_inv in H].
    + rewrite andb_true_iff, N.eqb_eq, IH. split.
      * intros [-> H]. by apply prefix_cons.
      * intros H. split; [by apply prefix_cons_inv_1 in H | by apply prefix_cons_inv_2 in H].
Qed.

(* ===================================================================== *)
(* The near-duplicate merge                                               *)
(* ===================================================================== *)

Section Merge.

Implicit Types (it a b : Item) (items pre mid post : list Item).
Implicit Types (acc : list Item * list jsstring).

Lemma isDuplicate_true seenNorms key :
  isDuplicate seenNorms key = true ↔ ∃ s, s ∈ seenNorms ∧ prefixRelated s key.
Proof.
  unfold isDuplicate, prefixRelated. rewrite existsb_exists. split.
  - intros (s & Hin & H). exists s. split; [by apply list_elem_of_In |].
    rewrite !orb_true_iff, eqb_eq, !startsWith_prefix in H. tauto.
  - intros (s & Hin & H). exists s. split; [by apply list_elem_of_In |].
    rewrite !orb_true_iff, eqb_eq, !startsWith_prefix. tauto.
Qed.

Lemma isDuplicate_false_notin seenNorms key :
  isDuplicate seenNorms key = false → existsb (λ s, eqb s key) seenNorms = false.
Proof.
  intros H. apply not_true_is_false. intros Hex.
  apply existsb_exists in Hex as (s & Hin & Heq).
  assert (isDuplicate seenNorms key = true); [| congruence].
  apply isDuplicate_true. exists s. split; [by apply list_elem_of_In |].
  left. by apply eqb_eq.
Qed.

Lemma uniqueLoop_app pre post acc :
  uniqueLoop (pre ++ post) acc = uniqueLoop post (uniqueLoop pre acc).
Proof. apply fold_left_app. Qed.

Lemma uniqueLoop_cons it items acc :
  uniqueLoop (it :: items) acc = uniqueLoop items (uniqueStep acc it).
Proof. reflexivity. Qed.

Lemma uniqueStep_keys acc it : keysOfAccepted acc → keysOfAccepted (uniqueStep acc it).
Proof.
  unfold keysOfAccepted, uniqueStep. intros H.
  destruct (isDuplicate acc.2 (matchKey it)) eqn:Hd; [done |]. simpl.
  unfold normsAdd. rewrite (isDuplicate_false_notin _ _ Hd).
  rewrite fmap_app. simpl. by rewrite H.
Qed.

Lemma uniqueLoop_keys items acc : keysOfAccepted acc → keysOfAccepted (uniqueLoop items acc).
Proof.
  revert acc. induction items as [|it items IH]; intros acc H; [done |].
  rewrite uniqueLoop_cons. apply IH. by apply uniqueStep_keys.
Qed.

(* an item is dropped as soon as its key is related to a stored one *)
Lemma uniqueStep_dropped acc it :
  (∃ s, s ∈ acc.2 ∧ prefixRelated s (matchKey it)) → uniqueStep acc it = acc.
Proof.
  intros H. apply isDuplicate_true in H. unfold uniqueStep. by rewrite H.
Qed.

(* the stored keys only grow, and so do the duplicates *)
Lemma uniqueStep_norms_mono acc it s : s ∈ acc.2 → s ∈ (uniqueStep acc it).2.
Proof.
  unfold uniqueStep. destruct (isDuplicate _ _); [done |]. simpl.
  unfold normsAdd. destruct (existsb _ _); [done |].
  intros H. apply elem_of_app. by left.
Qed.

Lemma uniqueLoop_norms_mono items acc s : s ∈ acc.2 → s ∈ (uniqueLoop items acc).2.
Proof.
  revert acc. induction items as [|it items IH]; intros acc H; [done |].
  rewrite uniqueLoop_cons. apply IH. by apply uniqueStep_norms_mono.
Qed.

(* after an item went through the loop, its key is a duplicate for good *)
Lemma uniqueStep_covers acc it :
  ∃ s, s ∈ (uniqueStep acc it).2 ∧ prefixRelated s (matchKey it).
Proof.
  unfold uniqueStep. destruct (isDuplicate _ _) eqn:Hd.
  - by apply isDuplicate_true.
  - simpl. exists (matchKey it). split; [| by left].
    unfold normsAdd. rewrite (isDuplicate_false_notin _ _ Hd).
    apply elem_of_app. right. by apply list_elem_of_singleton.
Qed.

Lemma uniqueLoop_sublist items acc :
  ∃ kept, sublist kept items ∧ (uniqueLoop items acc).1 = acc.1 ++ kept.
Proof.
  revert acc. induction items as [|it items IH]; intros acc.
  - exists []. split; [done |]. simpl. by rewrite app_nil_r.
  - rewrite uniqueLoop_cons. destruct (IH (uniqueStep acc it)) as (kept & Hs & ->).
    unfold uniqueStep. destruct (isDuplicate _ _).
    + exists kept. split; [by apply sublist_cons | done].
    + exists (it :: kept). split; [by apply sublist_skip |].
      simpl. by rewrite <- app_assoc.
Qed.

Lemma uniqueOrdered_sublist items : sublist (uniqueOrdered items) items.
Proof.
  unfold uniqueOrdered. destruct (uniqueLoop_sublist items ([], [])) as (kept & Hs & ->).
  done.
Qed.

Lemma uniqueOrdered_drop pre b post :
  (∃ a, a ∈ uniqueOrdered pre ∧ prefixRelated (matchKey a) (matchKey b)) →
  uniqueOrdered (pre ++ b :: post) = uniqueOrdered (pre ++ post).
Proof.
  intros (a & Ha & Hrel). unfold uniqueOrdered in *.
  rewrite !uniqueLoop_app, uniqueLoop_cons.
  rewrite uniqueStep_dropped; [done |].
  exists (matchKey a). split; [| done].
  rewrite (uniqueLoop_keys pre ([], [])); [| done].
  by apply list_elem_of_fmap_2.
Qed.

Lemma uniqueOrdered_same_key pre a mid b post :
  matchKey a = matchKey b →
  uniqueOrdered (pre ++ a :: mid ++ b :: post) = uniqueOrdered (pre ++ a :: mid ++ post).
Proof.
  intros Hk. unfold uniqueOrdered.
  rewrite !uniqueLoop_app, !uniqueLoop_cons, !uniqueLoop_app, uniqueLoop_cons.
  rewrite (uniqueStep_dropped _ b); [done |].
  destruct (uniqueStep_covers (uniqueLoop pre ([], [])) a) as (s & Hs & Hrel).
  exists s. split; [by apply uniqueLoop_norms_mono | by rewrite <- Hk].
Qed.

End Merge.

(* ===================================================================== *)
(* The seen registry                                                      *)
(* ===================================================================== *)

Section Registry.

Implicit Types (reg : gmap jsstring (gset jsstring)) (key sig : jsstring).
Implicit Types (items : list Item).

Lemma regLe_refl reg : regLe reg reg.
Proof. intros key seen H. exists seen. done. Qed.

Lemma regLe_trans reg1 reg2 reg3 : regLe reg1 reg2 → regLe reg2 reg3 → regLe reg1 reg3.
Proof.
  intros H12 H23 key seen H. destruct (H12 _ _ H) as (s2 & H2 & Hs2).
  destruct (H23 _ _ H2) as (s3 & H3 & Hs3). exists s3. split; [done | set_solver].
Qed.

Lemma regLe_seenOf reg1 reg2 key : regLe reg1 reg2 → seenOf key reg1 ⊆ seenOf key reg2.
Proof.
  intros H. unfold seenOf. destruct (reg1 !! key) as [s|] eqn:E; simpl; [| set_solver].
  destruct (H _ _ E) as (s' & -> & Hs). done.
Qed.

Lemma ensureConvSet_present reg key seen :
  reg !! key = Some seen → ensureConvSet key reg = reg.
Proof. intros H. unfold ensureConvSet. by rewrite H. Qed.

Lemma ensureConvSet_lookup reg key :
  ensureConvSet key reg !! key = Some (seenOf key reg).
Proof.
  unfold ensureConvSet, seenOf. destruct (reg !! key) eqn:E; simpl; [done |].
  by rewrite lookup_insert_eq.
Qed.

Lemma ensureConvSet_other reg key k : k ≠ key → ensureConvSet key reg !! k = reg !! k.
Proof.
  intros Hne. unfold ensureConvSet. destruct (reg !! key); [done |].
  by rewrite lookup_insert_ne.
Qed.

Lemma ensureConvSet_seenOf reg key k : seenOf k (ensureConvSet key reg) = seenOf k reg.
Proof.
  destruct (decide (k = key)) as [->|Hne].
  - unfold seenOf at 1. by rewrite ensureConvSet_lookup.
  - unfold seenOf. by rewrite ensureConvSet_other.
Qed.

Lemma seenAdd_other reg key sig k : k ≠ key → seenAdd key sig reg !! k = reg !! k.
Proof. intros Hne. unfold seenAdd. by rewrite lookup_alter_ne. Qed.

Lemma seenAdd_lookup reg key sig :
  seenAdd key sig reg !! key = (λ seen, seen ∪ {[sig]}) <$> reg !! key.
Proof. unfold seenAdd. by rewrite lookup_alter_eq. Qed.

Lemma markSeen_other reg key items k : k ≠ key → markSeen key items reg !! k = reg !! k.
Proof.
  intros Hne. unfold markSeen. revert reg.
  induction items as [|it items IH]; intros reg; simpl; [done |].
  rewrite IH. by apply seenAdd_other.
Qed.

Lemma markSeen_lookup reg key items :
  markSeen key items reg !! key
  = (λ seen, seen ∪ list_to_set (signature <$> items)) <$> reg !! key.
Proof.
  unfold markSeen. revert reg.
  induction items as [|it items IH]; intros reg; simpl.
  - destruct (reg !! key); simpl; [f_equal; set_solver | done].
  - rewrite IH, seenAdd_lookup. destruct (reg !! key); simpl; [f_equal; set_solver | done].
Qed.

(* ensure-then-mark, the shape every caller has *)
Lemma markSeen_ensure_seenOf reg key items :
  seenOf key (markSeen key items (ensureConvSet key reg))
  = seenOf key reg ∪ list_to_set (signature <$> items).
Proof.
  unfold seenOf at 1. by rewrite markSeen_lookup, ensureConvSet_lookup.
Qed.

Lemma ensureConvSet_le reg key : regLe reg (ensureConvSet key reg).
Proof.
  intros k seen H. destruct (decide (k = key)) as [->|Hne].
  - rewrite (ensureConvSet_present _ _ _ H). eauto.
  - rewrite ensureConvSet_other by done. eauto.
Qed.

Lemma markSeen_le reg key items : regLe reg (markSeen key items reg).
Proof.
  intros k seen H. destruct (decide (k = key)) as [->|Hne].
  - rewrite markSeen_lookup, H. simpl. eexists. split; [done | set_solver].
  - rewrite markSeen_other by done. eauto.
Qed.

Lemma seenAdd_le reg key sig : regLe reg (seenAdd key sig reg).
Proof.
  intros k seen H. destruct (decide (k = key)) as [->|Hne].
  - rewrite seenAdd_lookup, H. simpl. eexists. split; [done | set_solver].
  - rewrite seenAdd_other by done. eauto.
Qed.

Lemma seenHas_true reg key sig : seenHas key sig reg = true ↔ sig ∈ seenOf key reg.
Proof.
  unfold seenHas, seenOf. destruct (reg !! key); simpl.
  - by rewrite bool_decide_eq_true.
  - split; [done | set_solver].
Qed.

End Registry.

(* ===================================================================== *)
(* The scanner                                                            *)
(* ===================================================================== *)

Section Scanner.

Variable toLowerCase : jsstring → jsstring.

Implicit Types (node : Node) (it : Item) (p : list Node) (convKey : jsstring).

Local Abbreviation scanNode := (scanNode toLowerCase).
Local Abbreviation scanFrom := (scanFrom toLowerCase).
Local Abbreviation normalizeText := (normalizeText toLowerCase).

Lemma scanNode_none convKey idx node :
  rawOf node = [] → scanNode convKey idx node = (None, node).
Proof. unfold scanNode, rawOf. by intros ->. Qed.

Lemma scanNode_some convKey idx node :
  rawOf node ≠ [] →
  scanNode convKey idx node =
    (let raw := rawOf node in
     let norm := slice0 (normalizeText raw) 400 in
     let sig := signatureFor node norm in
     let nid := idFor convKey node sig in
     (Some (mkItem sig nid (previewText raw) norm raw idx),
      mkNode (tagName node) (roleAttr node) (className node) (testId node)
             (innerText node) (Some sig) nid)).
Proof. unfold scanNode, rawOf. intros H. by destruct (trim _). Qed.

Lemma scanNode_item convKey idx node it :
  (scanNode convKey idx node).1 = Some it →
  rawOf node ≠ [] ∧
  it = mkItem (signatureFor node (slice0 (normalizeText (rawOf node)) 400))
         (idFor convKey node (signatureFor node (slice0 (normalizeText (rawOf node)) 400)))
         (previewText (rawOf node))
         (slice0 (normalizeText (rawOf node)) 400) (rawOf node) idx.
Proof.
  destruct (decide (rawOf node = [])) as [E|E].
  - by rewrite scanNode_none.
  - rewrite scanNode_some by done. simpl. intros [= <-]. done.
Qed.

Lemma previewText_nonempty (raw : jsstring) : raw ≠ [] → previewText raw ≠ [].
Proof.
  unfold previewText. intros H. destruct (80 <? length raw)%nat; [| done].
  intros E. by apply app_eq_nil in E as [_ ?].
Qed.

Lemma signatureFor_nonempty node nrm : signatureFor node nrm ≠ [].
Proof. unfold signatureFor. by destruct (navSignature node) as [[|? ?]|]. Qed.

Lemma idFor_nonempty convKey node sig : idFor convKey node sig ≠ [].
Proof. unfold idFor. by destruct (nodeId node). Qed.

Lemma scanFrom_item convKey idx p it :
  it ∈ (scanFrom convKey idx p).1 →
  ∃ i node, p !! i = Some node ∧ isUserMessage node = true
            ∧ (scanNode convKey (idx + i) node).1 = Some it.
Proof.
  revert idx. induction p as [|n rest IH]; intros idx; simpl.
  - by intros ?%elem_of_nil.
  - assert (Hrest : it ∈ (scanFrom convKey (S idx) rest).1 →
      ∃ i node, (n :: rest) !! i = Some node ∧ isUserMessage node = true
                ∧ (scanNode convKey (idx + i) node).1 = Some it).
    { intros H. destruct (IH _ H) as (i & node & Hi & Hm & Hs).
      exists (S i), node. split; [done |]. split; [done |].
      by replace (idx + S i)%nat with (S idx + i)%nat by lia. }
    destruct (isUserMessage n) eqn:Hn; simpl; [| done].
    destruct (scanNode convKey idx n).1 as [it0|] eqn:Hs; [| done].
    intros [->|H]%elem_of_cons; [| by apply Hrest].
    exists 0%nat, n. split; [done |]. split; [done |].
    by rewrite Nat.add_0_r.
Qed.

Lemma scanFrom_complete convKey idx p i node it :
  p !! i = Some node → isUserMessage node = true →
  (scanNode convKey (idx + i) node).1 = Some it →
  it ∈ (scanFrom convKey idx p).1.
Proof.
  revert idx i. induction p as [|n rest IH]; intros idx i; [done |].
  destruct i as [|i]; simpl.
  - intros [= ->] Hm. rewrite Nat.add_0_r, Hm. intros ->. simpl. apply elem_of_cons. by left.
  - intros Hi Hm Hs.
    assert (it ∈ (scanFrom convKey (S idx) rest).1) as Hin.
    { apply (IH (S idx) i); [done | done |].
      by replace (S idx + i)%nat with (idx + S i)%nat by lia. }
    destruct (isUserMessage n); simpl; [| done].
    destruct (scanNode convKey idx n).1; [| done].
    apply elem_of_cons. by right.
Qed.

Lemma scanFrom_ordered convKey idx p :
  Forall (λ e, idx ≤ e)%nat (element <$> (scanFrom convKey idx p).1)
  ∧ StronglySorted lt (element <$> (scanFrom convKey idx p).1).
Proof.
  revert idx. induction p as [|n rest IH]; intros idx; simpl.
  - split; constructor.
  - destruct (IH (S idx)) as [Hge Hsorted].
    assert (Forall (λ e, idx ≤ e)%nat (element <$> (scanFrom convKey (S idx) rest).1)) as Hge'.
    { eapply Forall_impl; [exact Hge |]. simpl. intros. lia. }
    destruct (isUserMessage n); simpl; [| done].
    destruct (scanNode convKey idx n).1 as [it0|] eqn:Hs; [| done].
    apply scanNode_item in Hs as [_ ->]. simpl. split.
    + constructor; [lia | done].
    + constructor; [done |]. eapply Forall_impl; [exact Hge |]. simpl. intros. lia.
Qed.

(* nodes outside the selector are left as they are *)
Lemma scanFrom_page_other convKey idx p i node :
  p !! i = Some node → isUserMessage node = false →
  (scanFrom convKey idx p).2 !! i = Some node.
Proof.
  revert idx i. induction p as [|n rest IH]; intros idx i; [done |].
  destruct i as [|i]; simpl.
  - intros [= ->] ->. done.
  - intros Hi Hm. destruct (isUserMessage n); simpl; by apply IH.
Qed.

(* a second scan of the scanned page finds the same items and changes
   nothing: the attributes written by the first one are read back *)
Lemma scanNode_idem convKey idx node :
  scanNode convKey idx (scanNode convKey idx node).2 = scanNode convKey idx node.
Proof.
  destruct (decide (rawOf node = [])) as [E|E].
  - rewrite (scanNode_none _ _ node E). by apply scanNode_none.
  - rewrite (scanNode_some _ _ node) by done. cbv zeta. cbn [snd].
    set (nrm := slice0 (normalizeText (rawOf node)) 400).
    set (sig := signatureFor node nrm).
    set (nid := idFor convKey node sig).
    set (node' := mkNode _ _ _ _ _ _ _).
    assert (rawOf node' = rawOf node) as Hraw by reflexivity.
    rewrite scanNode_some by (by rewrite Hraw). cbv zeta.
    rewrite Hraw. fold nrm.
    assert (signatureFor node' nrm = sig) as ->.
    { unfold signatureFor at 1. cbn [navSignature node'].
      pose proof (signatureFor_nonempty node nrm) as H. fold sig in H. by destruct sig. }
    assert (idFor convKey node' sig = nid) as ->.
    { unfold idFor at 1. cbn [nodeId node'].
      pose proof (idFor_nonempty convKey node sig) as H. fold nid in H. by destruct nid. }
    done.
Qed.

Lemma scanNode_isUserMessage convKey idx node :
  isUserMessage (scanNode convKey idx node).2 = isUserMessage node.
Proof.
  destruct (decide (rawOf node = [])) as [E|E].
  - by rewrite scanNode_none.
  - by rewrite scanNode_some.
Qed.

Lemma scanFrom_idem convKey idx p :
  scanFrom convKey idx (scanFrom convKey idx p).2 = scanFrom convKey idx p.
Proof.
  revert idx. induction p as [|n rest IH]; intros idx; simpl; [done |].
  destruct (isUserMessage n) eqn:Hn; simpl.
  - by rewrite scanNode_isUserMessage, Hn, scanNode_idem, IH.
  - by rewrite Hn, IH.
Qed.

Lemma scanFrom_length convKey idx p :
  length (scanFrom convKey idx p).2 = length p.
Proof.
  revert idx. induction p as [|n rest IH]; intros idx; [done |]. simpl.
  destruct (isUserMessage n); simpl; by rewrite IH.
Qed.

Lemma scanFrom_page_matched convKey idx p i node :
  p !! i = Some node → isUserMessage node = true →
  (scanFrom convKey idx p).2 !! i
  = Some (scanNode convKey (idx + i) node).2.
Proof.
  revert idx i. induction p as [|n rest IH]; intros idx i; [done |].
  destruct i as [|i]; simpl.
  - intros [= ->] ->. by rewrite Nat.add_0_r.
  - intros Hi Hm. replace (idx + S i)%nat with (S idx + i)%nat by lia.
    destruct (isUserMessage n); simpl; by apply IH.
Qed.

End Scanner.

(* ===================================================================== *)
(* The sidebar                                                            *)
(* ===================================================================== *)

Section Rendering.

Implicit Types (st : State) (q : Item) (items : list Item) (l : list Entry).

Lemma itemDomIdOf_cons sig :
  itemDomIdOf sig = 99 :: 103 :: 112 :: 110 :: 45 :: 105 :: 116 :: 101 :: 109 :: 45 :: sig.
Proof. reflexivity. Qed.

Lemma existsb_app_bool {A} (f : A → bool) (l1 l2 : list A) :
  existsb f (l1 ++ l2) = existsb f l1 || existsb f l2.
Proof. apply existsb_app. Qed.

(* the fixed ids of the injected controls are never item ids *)
Lemma hasElementById_item st sig :
  hasElementById st (itemDomIdOf sig)
  = pageHasId (page st) (itemDomIdOf sig) || listHasId (navListOf st) (itemDomIdOf sig).
Proof.
  unfold hasElementById, injectedIds, navListOf, listHasId, pageHasId.
  rewrite itemDomIdOf_cons. f_equal.
  destruct (toggleBtn st), (sidebar st), (styleInjected st);
    rewrite ?existsb_app_bool; cbn [existsb eqb N.eqb Pos.eqb andb orb app lit
      fmap list_fmap list_ascii_of_string N_of_ascii N_of_digits];
    rewrite ?orb_false_r; reflexivity.
Qed.

Lemma setSidebar_id st sb : sidebar st = Some sb → setSidebar (Some sb) st = st.
Proof. destruct st. simpl. by intros ->. Qed.

Lemma fold_renderItem items st sb :
  sidebar st = Some sb →
  fold_left renderItem items st
  = setSidebar (Some (mkSidebar (display sb)
                        (renderEntries (page st) items (navList sb)))) st.
Proof.
  revert st sb. induction items as [|q rest IH]; intros st sb Hsb.
  - simpl. destruct sb. by rewrite setSidebar_id.
  - cbn [fold_left renderEntries]. unfold renderItem at 2.
    rewrite hasElementById_item. unfold navListOf. rewrite Hsb.
    destruct (pageHasId _ _ || listHasId _ _); [by apply IH |].
    unfold appendEntry. rewrite Hsb.
    erewrite IH; [| reflexivity]. by destruct st.
Qed.

Lemma entrySigs_app l1 l2 : entrySigs (l1 ++ l2) = entrySigs l1 ++ entrySigs l2.
Proof. apply omap_app. Qed.

Lemma listHasId_false l sig :
  entriesOk l → listHasId l (itemDomIdOf sig) = false → sig ∉ entrySigs l.
Proof.
  intros [_ Hids] Hno Hin.
  apply list_elem_of_omap in Hin as (e & He & Hsig).
  destruct e as [|i lbl q]; [done |]. simpl in Hsig. injection Hsig as <-.
  pose proof (Hids _ _ _ He) as ->.
  assert (listHasId l (itemDomIdOf (signature q)) = true); [| congruence].
  unfold listHasId. apply existsb_exists. exists (itemDomIdOf (signature q)).
  split; [| apply eqb_refl]. apply list_elem_of_In, list_elem_of_omap.
  by exists (NavItem (itemDomIdOf (signature q)) lbl q).
Qed.

Lemma renderEntries_ok p items l : entriesOk l → entriesOk (renderEntries p items l).
Proof.
  revert l. induction items as [|q rest IH]; intros l Hok; [done |].
  cbn [renderEntries]. destruct (pageHasId _ _ || listHasId _ _) eqn:Hhas; [by apply IH |].
  apply IH. apply orb_false_iff in Hhas as [_ Hl].
  pose proof (listHasId_false _ _ Hok Hl) as Hfresh.
  destruct Hok as [Hnd Hids]. split.
  - rewrite entrySigs_app. apply NoDup_app. split; [done |]. split.
    + intros x Hx. unfold entrySigs. simpl. intros ->%list_elem_of_singleton. done.
    + unfold entrySigs. simpl. apply NoDup_singleton.
  - intros i lbl q' [Hin|Hin]%elem_of_app; [by eapply Hids |].
    apply list_elem_of_singleton in Hin as [= -> -> ->]. done.
Qed.

(* every rendered item comes from the list given to the loop *)
Lemma renderEntries_from p items l e :
  e ∈ renderEntries p items l →
  e ∈ l ∨ ∃ q, q ∈ items ∧ e = NavItem (itemDomIdOf (signature q)) (labelOf q) q.
Proof.
  revert l. induction items as [|q rest IH]; intros l; [by left |].
  cbn [renderEntries]. destruct (pageHasId _ _ || listHasId _ _).
  - intros [H|(q' & Hq' & ->)]%IH; [by left |]. right. exists q'. split; [| done].
    apply elem_of_cons. by right.
  - intros [[H|H]%elem_of_app|(q' & Hq' & ->)]%IH.
    + by left.
    + apply list_elem_of_singleton in H as ->. right. exists q. split; [| done].
      apply elem_of_cons. by left.
    + right. exists q'. split; [| done]. apply elem_of_cons. by right.
Qed.


Lemma entriesOk_nil : entriesOk [].
Proof. split; [constructor | by intros ??? ?%elem_of_nil]. Qed.

Lemma openList_ok convKey toLower p : entriesOk (openList convKey toLower p).
Proof.
  unfold openList. cbv zeta. destruct (length _ =? 0)%nat.
  - split; [unfold entrySigs; simpl; constructor |].
    by intros ??? [=]%list_elem_of_singleton.
  - apply renderEntries_ok, entriesOk_nil.
Qed.


End Rendering.

(* ===================================================================== *)
(* The operations as explicit states                                      *)
(* ===================================================================== *)

Section Operations.

Variable toLowerCase : jsstring → jsstring.

Implicit Types (st : State) (items : list Item).


Lemma updateSidebar_eq items (append : bool) st :
  updateSidebar items append st
  = setSidebar (Some (mkSidebar (displayOf st)
      (if (length items =? 0)%nat && negb append then [NavEmpty]
       else renderEntries (page st) items (if append then navListOf st else []))))
      st.
Proof.
  unfold updateSidebar, ensureSidebar, setNavList, appendEntry, displayOf, navListOf.
  destruct st as [loc p reg tb [[d l]|] sty con rt att ins deb lc];
    destruct append, (length items =? 0)%nat eqn:E; cbn -[renderEntries];
    try reflexivity;
    try (erewrite fold_renderItem by reflexivity; reflexivity).
  all: apply Nat.eqb_eq in E; destruct items; [reflexivity | discriminate].
Qed.

Lemma toggleSidebar_close_eq st :
  toggleSidebar toLowerCase false st
  = mkState (location st) (page st) (convSeen st) (Some false)
      (Some (mkSidebar DisplayNone [])) true (console st)
      (readyTimer st) (attempts st) (installed st) (debouncePending st) (lastConv st).
Proof.
  unfold_ops. by destruct st as [loc p reg [tb|] [[d l]|] [|] con rt att ins deb lc].
Qed.

Lemma toggleSidebar_open_eq st :
  toggleSidebar toLowerCase true st
  = let convKey := getConversationKey (location st) in
    let unique := uniqueOrdered (scannedItems toLowerCase st) in
    mkState (location st) (scannedPage toLowerCase st)
      (markSeen convKey unique (ensureConvSet convKey (convSeen st)))
      (Some true)
      (Some (mkSidebar DisplayBlock (openList convKey toLowerCase (page st))))
      true (console st ++ [LogOpened (length unique)])
      (readyTimer st) (attempts st) (installed st) (debouncePending st) (lastConv st).
Proof.
  unfold toggleSidebar. cbv zeta. rewrite updateSidebar_eq.
  unfold_ops. unfold openList. cbn [negb]. rewrite andb_true_r.
  by destruct st as [loc p reg [tb|] [[d l]|] [|] con rt att ins deb lc].
Qed.

Lemma initialSilentMark_eq st :
  initialSilentMark toLowerCase st
  = let convKey := getConversationKey (location st) in
    mkState (location st) (scannedPage toLowerCase st)
      (markSeen convKey (scannedItems toLowerCase st) (ensureConvSet convKey (convSeen st)))
      (toggleBtn st) (sidebar st) (styleInjected st)
      (console st ++ [LogInitialMark (length (scannedItems toLowerCase st)) convKey])
      (readyTimer st) (attempts st) (installed st) (debouncePending st) (lastConv st).
Proof. unfold_ops. by destruct st. Qed.

Lemma appendNew_eq st :
  appendNewMessagesForCurrentConv toLowerCase st
  = let convKey := getConversationKey (location st) in
    let merged := detectedItems toLowerCase st in
    mkState (location st) (scannedPage toLowerCase st)
      (markSeen convKey merged (ensureConvSet convKey (convSeen st)))
      (toggleBtn st)
      (match unseenItems toLowerCase st with
       | [] => sidebar st
       | _ => if sidebarVisible st
              then Some (mkSidebar DisplayBlock
                           (renderEntries (scannedPage toLowerCase st) merged (navListOf st)))
              else sidebar st
       end)
      (styleInjected st)
      (match unseenItems toLowerCase st with
       | [] => console st
       | _ => console st ++ [if sidebarVisible st then LogAppended (length merged)
                             else LogDetected (length merged)]
       end)
      (readyTimer st) (attempts st) (installed st) (debouncePending st) (lastConv st).
Proof.
  unfold appendNewMessagesForCurrentConv. cbv zeta.
  unfold detectedItems, unseenItems, scannedItems, scannedPage,
    getAllMessagesForCurrentConv.
  destruct st as [loc p reg tb sb sty con rt att ins deb lc].
  cbn [location page convSeen setConvSeen setPage fst snd toggleBtn sidebar
       styleInjected console readyTimer attempts installed debouncePending lastConv].
  set (k := getConversationKey loc).
  set (r := scanFrom toLowerCase k 0 p).
  set (new := filter _ r.1).
  destruct new as [|it new'] eqn:Hnew; [reflexivity |].
  rewrite updateSidebar_eq. unfold sidebarVisible, displayOf, navListOf, consoleLog.
  cbn [location page convSeen setConvSeen setPage fst snd toggleBtn sidebar
       styleInjected console readyTimer attempts installed debouncePending lastConv
       setSidebar].
  destruct sb as [[[| |] l]|]; cbn [display navList negb andb]; try reflexivity.
  rewrite andb_false_r. reflexivity.
Qed.

Lemma readyTick_found_eq st :
  hasChatRoot (page st) = true →
  readyTick toLowerCase st
  = let convKey := getConversationKey (location st) in
    mkState (location st) (scannedPage toLowerCase st)
      (markSeen convKey (scannedItems toLowerCase st) (ensureConvSet convKey (convSeen st)))
      (Some (default false (toggleBtn st))) (sidebar st) (styleInjected st)
      (console st ++ [LogRootFound; LogInitialMark (length (scannedItems toLowerCase st)) convKey])
      false (S (attempts st)) true (debouncePending st) convKey.
Proof.
  intros Hroot. unfold readyTick. cbv zeta.
  cbn [page setAttempts]. rewrite Hroot, initialSilentMark_eq.
  unfold_ops. destruct st as [loc p reg [tb|] sb sty con rt att ins deb lc];
    cbn; by rewrite <- app_assoc.
Qed.

Lemma readyTick_missing_eq st :
  hasChatRoot (page st) = false →
  readyTick toLowerCase st
  = if (MAX_ATTEMPTS <? S (attempts st))%nat
    then mkState (location st) (page st) (convSeen st) (toggleBtn st) (sidebar st)
           (styleInjected st) (console st ++ [WarnNoRoot]) false (S (attempts st))
           (installed st) (debouncePending st) (lastConv st)
    else mkState (location st) (page st) (convSeen st) (toggleBtn st) (sidebar st)
           (styleInjected st) (console st) (readyTimer st) (S (attempts st))
           (installed st) (debouncePending st) (lastConv st).
Proof.
  intros Hroot. unfold readyTick. cbv zeta. cbn [page setAttempts]. rewrite Hroot.
  destruct st as [loc p reg tb sb sty con rt att ins deb lc]. state_simpl.
  by destruct (MAX_ATTEMPTS <? S att)%nat.
Qed.

Lemma convTick_same st :
  getConversationKey (location st) = lastConv st → convTick toLowerCase st = st.
Proof. intros H. unfold convTick. cbv zeta. by rewrite H, eqb_refl. Qed.

Lemma convTick_changed_eq st :
  getConversationKey (location st) ≠ lastConv st →
  convTick toLowerCase st
  = let cur := getConversationKey (location st) in
    mkState (location st) (scannedPage toLowerCase st)
      (markSeen cur (scannedItems toLowerCase st) (ensureConvSet cur (convSeen st)))
      (toggleBtn st)
      ((λ sb, mkSidebar (display sb) []) <$> sidebar st)
      (styleInjected st)
      (console st ++ [LogConvChanged (lastConv st) cur;
                      LogInitialMark (length (scannedItems toLowerCase st)) cur])
      (readyTimer st) (attempts st) (installed st) (debouncePending st) cur.
Proof.
  intros Hne. unfold convTick. cbv zeta.
  destruct (eqb _ _) eqn:E; [by apply eqb_eq in E |].
  rewrite initialSilentMark_eq. unfold_ops.
  destruct st as [loc p reg tb [sb|] sty con rt att ins deb lc];
    cbn; by rewrite <- app_assoc.
Qed.

End Operations.

(* ===================================================================== *)
(* Properties of the merge and of the scanner                             *)
(* ===================================================================== *)

(** C2: within one batch, an item whose 200-unit key equals, is a prefix of,
    or has as a prefix the key of an item accepted before it is dropped (the
    result is the one of the batch without it); the result is a subsequence
    of the input; and the page with the nodes "Hello world" and
    "hello   world " yields exactly one entry, with the signature of
    "hello world". *)
Theorem near_duplicate_merge :
  (∀ (pre post : list Item) (a b : Item),
     a ∈ uniqueOrdered pre →
     (matchKey b = matchKey a ∨ matchKey b `prefix_of` matchKey a
      ∨ matchKey a `prefix_of` matchKey b) →
     uniqueOrdered (pre ++ b :: post) = uniqueOrdered (pre ++ post))
  ∧ (∀ items : list Item, sublist (uniqueOrdered items) items)
  ∧ (∃ q1 q2 : Item,
       (getAllMessagesForCurrentConv asciiLower (initialState locA helloPage)).1 = [q1; q2]
       ∧ uniqueOrdered [q1; q2] = [q1]
       ∧ signature q1 = lit "s_" ++ strHashHex (lit "hello world")
       ∧ navListOf (toggleSidebar asciiLower true (initialState locA helloPage))
         = [NavItem (itemDomIdOf (signature q1)) (lit "Hello world") q1]).
Proof.
  split; [| split].
  - intros pre post a b Ha Hrel. apply uniqueOrdered_drop.
    exists a. split; [done |]. unfold prefixRelated. naive_solver.
  - apply uniqueOrdered_sublist.
  - eexists _, _. split; [vm_compute; reflexivity |].
    split; [vm_compute; reflexivity |].
    split; vm_compute; reflexivity.
Qed.

Lemma near_duplicate_merge_witness :
  let a := mkItem (lit "s_1") (lit "n1") (lit "hi") (lit "hi") (lit "hi") 0 in
  let b := mkItem (lit "s_2") (lit "n2") (lit "hi there") (lit "hi there") (lit "hi there") 1 in
  uniqueOrdered ([a] ++ b :: []) = uniqueOrdered ([a] ++ []).
Proof.
  intros a b. apply (proj1 near_duplicate_merge [a] [] a b).
  - vm_compute. apply list_elem_of_here.
  - right. right. vm_compute. by exists (lit " there").
Defined.

(* what the loop does with the item that follows [pre] *)
Lemma uniqueOrdered_snoc (pre : list Item) (b : Item) :
  uniqueOrdered (pre ++ [b])
  = if isDuplicate (matchKey <$> uniqueOrdered pre) (matchKey b)
    then uniqueOrdered pre else uniqueOrdered pre ++ [b].
Proof.
  unfold uniqueOrdered. rewrite uniqueLoop_app. cbn [uniqueLoop fold_left].
  unfold uniqueStep. rewrite (uniqueLoop_keys pre ([], [])) by done.
  by destruct (isDuplicate _ _).
Qed.

(** C10: the merge compares exactly the first 200 units of each item's
    normalized text (the item's norm keeps 400): the key of a scanned item is
    that 200-unit prefix; an item is dropped precisely when its prefix equals,
    extends or is extended by the prefix of an item kept before it in the
    batch, and is kept otherwise; so of two scanned messages whose normalized
    texts agree on their first 200 units the later one is dropped, whatever
    follows unit 200. *)
Theorem merge_compares_first_200 (toLower : jsstring → jsstring) (st : State) :
  (∀ it, it ∈ (getAllMessagesForCurrentConv toLower st).1 →
     norm it = take 400 (normalizeText toLower (rawText it))
     ∧ matchKey it = take 200 (normalizeText toLower (rawText it)))
  ∧ (∀ (pre mid post : list Item) (a b : Item),
       (getAllMessagesForCurrentConv toLower st).1 = pre ++ a :: mid ++ b :: post →
       take 200 (normalizeText toLower (rawText a))
       = take 200 (normalizeText toLower (rawText b)) →
       uniqueOrdered (pre ++ a :: mid ++ b :: post)
       = uniqueOrdered (pre ++ a :: mid ++ post))
  ∧ (∀ (pre post : list Item) (b : Item),
       (getAllMessagesForCurrentConv toLower st).1 = pre ++ b :: post →
       ((∃ a, a ∈ uniqueOrdered pre
              ∧ prefixRelated (take 200 (normalizeText toLower (rawText a)))
                              (take 200 (normalizeText toLower (rawText b)))) →
        uniqueOrdered (pre ++ [b]) = uniqueOrdered pre)
       ∧ ((∀ a, a ∈ uniqueOrdered pre →
             ¬ prefixRelated (take 200 (normalizeText toLower (rawText a)))
                             (take 200 (normalizeText toLower (rawText b)))) →
          uniqueOrdered (pre ++ [b]) = uniqueOrdered pre ++ [b])).
Proof.
  assert (∀ it, it ∈ (getAllMessagesForCurrentConv toLower st).1 →
            norm it = take 400 (normalizeText toLower (rawText it))
            ∧ matchKey it = take 200 (normalizeText toLower (rawText it))) as Hkey.
  { intros it Hin. apply scanFrom_item in Hin as (i & node & _ & _ & Hs).
    apply scanNode_item in Hs as [_ ->]. split; [reflexivity |].
    unfold matchKey, slice0. cbn [norm rawText]. unfold slice0.
    by rewrite take_take. }
  split; [exact Hkey |]. split.
  - intros pre mid post a b Hitems H200.
    apply uniqueOrdered_same_key.
    assert (a ∈ (getAllMessagesForCurrentConv toLower st).1) as Ha.
    { rewrite Hitems. apply elem_of_app. right. apply list_elem_of_here. }
    assert (b ∈ (getAllMessagesForCurrentConv toLower st).1) as Hb.
    { rewrite Hitems. apply elem_of_app. right. apply list_elem_of_further.
      apply elem_of_app. right. apply list_elem_of_here. }
    by rewrite (proj2 (Hkey a Ha)), (proj2 (Hkey b Hb)).
  - intros pre post b Hitems.
    assert (∀ a, a ∈ uniqueOrdered pre →
              matchKey a = take 200 (normalizeText toLower (rawText a))) as Hpre.
    { intros a Ha. apply Hkey. rewrite Hitems. apply elem_of_app. left.
      eapply elem_of_sublist; [exact Ha | apply uniqueOrdered_sublist]. }
    assert (matchKey b = take 200 (normalizeText toLower (rawText b))) as Hb.
    { apply Hkey. rewrite Hitems. apply elem_of_app. right. apply list_elem_of_here. }
    rewrite uniqueOrdered_snoc. split.
    + intros (a & Ha & Hrel).
      assert (isDuplicate (matchKey <$> uniqueOrdered pre) (matchKey b) = true) as ->;
        [| done].
      apply isDuplicate_true. exists (matchKey a).
      split; [by apply list_elem_of_fmap_2 |]. by rewrite (Hpre a Ha), Hb.
    + intros Hnone.
      destruct (isDuplicate (matchKey <$> uniqueOrdered pre) (matchKey b)) eqn:Hd; [| done].
      apply isDuplicate_true in Hd as (s & Hs & Hrel).
      apply list_elem_of_fmap in Hs as (a & -> & Ha).
      destruct (Hnone a Ha). by rewrite <- (Hpre a Ha), <- Hb.
Qed.

Lemma merge_compares_first_200_witness :
  ∃ a b : Item,
    (getAllMessagesForCurrentConv asciiLower (initialState locA longPage)).1 = [a; b]
    ∧ signature a ≠ signature b
    ∧ ¬ norm a `prefix_of` norm b ∧ ¬ norm b `prefix_of` norm a
    ∧ matchKey a = matchKey b
    ∧ uniqueOrdered [a; b] = uniqueOrdered [a].
Proof.
  eexists _, _. split; [vm_compute; reflexivity |].
  match goal with |- _ ∧ _ ∧ _ ∧ ?k1 = ?k2 ∧ uniqueOrdered [?a; ?b] = _ =>
    pose proof (proj1 (proj2 (merge_compares_first_200 asciiLower
                  (initialState locA longPage))) [] [] [] a b) as H
  end.
  split; [vm_compute; discriminate |].
  split; [rewrite <- startsWith_prefix; vm_compute; discriminate |].
  split; [rewrite <- startsWith_prefix; vm_compute; discriminate |].
  split; [vm_compute; reflexivity |].
  apply H; vm_compute; reflexivity.
Defined.

(** C7: the scanner reads exactly the elements matched by
    [data-testid="user-message"], with no fallback: every item comes from such
    an element, holds its trimmed text, which is not empty (nor is the preview);
    every such element with a non-empty trimmed text gives an item; elements
    outside the selector are left untouched; the items are in document order. *)
Theorem scanner_contract (toLower : jsstring → jsstring) (st : State) :
  (∀ it, it ∈ (getAllMessagesForCurrentConv toLower st).1 →
     ∃ node, page st !! element it = Some node
             ∧ isUserMessage node = true
             ∧ rawText it = trim (default [] (innerText node))
             ∧ rawText it ≠ [] ∧ text it ≠ [])
  ∧ (∀ i node, page st !! i = Some node → isUserMessage node = true →
       trim (default [] (innerText node)) ≠ [] →
       ∃ it, it ∈ (getAllMessagesForCurrentConv toLower st).1 ∧ element it = i)
  ∧ (∀ i node, page st !! i = Some node → isUserMessage node = false →
       page (getAllMessagesForCurrentConv toLower st).2 !! i = Some node)
  ∧ StronglySorted lt (element <$> (getAllMessagesForCurrentConv toLower st).1).
Proof.
  unfold getAllMessagesForCurrentConv. cbn [fst snd page setPage].
  split; [| split; [| split]].
  - intros it Hin. apply scanFrom_item in Hin as (i & node & Hi & Hm & Hs).
    apply scanNode_item in Hs as [Hraw ->]. cbn [element rawText text].
    exists node. repeat split; try done. by apply previewText_nonempty.
  - intros i node Hi Hm Hraw.
    pose proof (scanNode_some toLower (getConversationKey (location st)) (0 + i) node Hraw) as Hs.
    cbv zeta in Hs.
    eexists. split.
    + eapply scanFrom_complete; [exact Hi | exact Hm |]. rewrite Hs. reflexivity.
    + reflexivity.
  - intros i node Hi Hm. by apply scanFrom_page_other.
  - apply scanFrom_ordered.
Qed.

Lemma scanner_contract_witness :
  ∃ it, it ∈ (getAllMessagesForCurrentConv asciiLower (initialState locA hiPage)).1
        ∧ element it = 1%nat.
Proof.
  apply (proj1 (proj2 (scanner_contract asciiLower (initialState locA hiPage)))
           1%nat (userMessageNode (lit "hi there"))).
  - reflexivity.
  - reflexivity.
  - vm_compute. discriminate.
Defined.

(** C1 (as stated) fails: on the page of an edited message, two scanned
    elements have the same normalized text and different signatures, since
    the first one keeps the signature attached to it earlier. *)
Lemma same_text_same_signature_counterexample :
  ∃ it1 it2,
    (getAllMessagesForCurrentConv asciiLower (initialState locA editedPage)).1 = [it1; it2]
    ∧ normalizeText asciiLower (rawText it1) = normalizeText asciiLower (rawText it2)
    ∧ signature it1 = lit "s_" ++ strHashHex (lit "hello")
    ∧ signature it2 = lit "s_" ++ strHashHex (lit "hi")
    ∧ signature it1 ≠ signature it2.
Proof.
  eexists _, _. split; [vm_compute; reflexivity |].
  repeat split; try (vm_compute; reflexivity). vm_compute. discriminate.
Qed.

(** C1 (amended): an element that already carries a non-empty
    data-nav-signature keeps it as its signature, whatever its text now is,
    and one that carries none gets "s_" followed by the hash of the first 400
    units of its normalized text.  So two scanned elements whose raw texts
    have the same normalized form get the same signature whenever each of
    them carries no signature or the one computed from its present text; a
    scan leaves every element it read in that condition when it found it so
    (with the signature it returned attached), which covers every element
    scanned before whose text has not changed. *)
Theorem same_text_same_signature (toLower : jsstring → jsstring) (st : State) :
  (∀ it n, it ∈ (getAllMessagesForCurrentConv toLower st).1 →
     page st !! element it = Some n →
     (∀ c s, navSignature n = Some (c :: s) → signature it = c :: s)
     ∧ (hasNoSignature n = true →
        signature it = computedSignature toLower (rawText it)))
  ∧ (∀ it1 it2 n1 n2,
       it1 ∈ (getAllMessagesForCurrentConv toLower st).1 →
       it2 ∈ (getAllMessagesForCurrentConv toLower st).1 →
       page st !! element it1 = Some n1 → signatureCurrent toLower n1 →
       page st !! element it2 = Some n2 → signatureCurrent toLower n2 →
       normalizeText toLower (rawText it1) = normalizeText toLower (rawText it2) →
       signature it1 = signature it2
       ∧ signature it1 = computedSignature toLower (rawText it1))
  ∧ (∀ it n, it ∈ (getAllMessagesForCurrentConv toLower st).1 →
       page st !! element it = Some n → signatureCurrent toLower n →
       ∃ n', page (getAllMessagesForCurrentConv toLower st).2 !! element it = Some n'
             ∧ innerText n' = innerText n
             ∧ navSignature n' = Some (signature it)
             ∧ signatureCurrent toLower n').
Proof.
  unfold getAllMessagesForCurrentConv. cbn [fst snd page setPage].
  set (convKey := getConversationKey (location st)).
  (* every item is the one scanNode builds from the element at its position *)
  assert (∀ it n, it ∈ (scanFrom toLower convKey 0 (page st)).1 →
            page st !! element it = Some n →
            isUserMessage n = true ∧ rawOf n ≠ [] ∧ rawText it = rawOf n
            ∧ signature it = signatureFor n (slice0 (normalizeText toLower (rawOf n)) 400))
    as Hitem.
  { intros it n Hin Hn. apply scanFrom_item in Hin as (i & node & Hi & Hm & Hs).
    apply scanNode_item in Hs as [Hraw ->]. cbn [element rawText signature Nat.add] in *.
    rewrite Hi in Hn. injection Hn as ->. done. }
  assert (∀ it n, it ∈ (scanFrom toLower convKey 0 (page st)).1 →
            page st !! element it = Some n → signatureCurrent toLower n →
            signature it = computedSignature toLower (rawText it)) as Hcur.
  { intros it n Hin Hn Hc. destruct (Hitem it n Hin Hn) as (_ & _ & -> & ->).
    unfold signatureFor, computedSignature.
    destruct Hc as [Hno|Hsome].
    - unfold hasNoSignature in Hno. by destruct (navSignature n) as [[|? ?]|].
    - rewrite Hsome. unfold computedSignature. reflexivity. }
  split; [| split].
  - intros it n Hin Hn. split.
    + intros c s Hattr. destruct (Hitem it n Hin Hn) as (_ & _ & _ & ->).
      unfold signatureFor. by rewrite Hattr.
    + intros Hno. apply (Hcur it n Hin Hn). by left.
  - intros it1 it2 n1 n2 H1 H2 Hn1 Hc1 Hn2 Hc2 Heq.
    rewrite (Hcur _ _ H1 Hn1 Hc1), (Hcur _ _ H2 Hn2 Hc2).
    unfold computedSignature. by rewrite Heq.
  - intros it n Hin Hn Hc.
    pose proof (Hcur it n Hin Hn Hc) as Hsig.
    destruct (Hitem it n Hin Hn) as (Hm & Hraw & Hrt & Hsf).
    pose proof (scanFrom_page_matched toLower convKey 0 _ _ _ Hn Hm) as Hpage.
    rewrite scanNode_some in Hpage by done. cbv zeta in Hpage. cbn [snd] in Hpage.
    eexists. split; [exact Hpage |]. cbn [innerText navSignature].
    split; [done |]. split; [by rewrite Hsf |].
    right. cbn [navSignature]. rewrite <- Hsf, Hsig, Hrt. reflexivity.
Qed.

Lemma same_text_same_signature_witness :
  ∃ it1 it2,
    (getAllMessagesForCurrentConv asciiLower (initialState locA helloPage)).1 = [it1; it2]
    ∧ rawText it1 ≠ rawText it2
    ∧ signature it1 = signature it2.
Proof.
  eexists _, _. split; [vm_compute; reflexivity |].
  split; [vm_compute; discriminate |].
  match goal with |- signature ?a = signature ?b =>
    destruct (proj1 (proj2 (same_text_same_signature asciiLower
                (initialState locA helloPage)))
              a b (userMessageNode (lit "Hello world"))
              (userMessageNode (lit "hello   world "))) as [Hsame _]
  end.
  - vm_compute. apply list_elem_of_here.
  - vm_compute. apply list_elem_of_further, list_elem_of_here.
  - reflexivity.
  - by left.
  - reflexivity.
  - by left.
  - vm_compute. reflexivity.
  - exact Hsame.
Defined.

(* ===================================================================== *)
(* Properties of the sidebar                                              *)
(* ===================================================================== *)

Lemma NoDup_omap_lookup {A B} (f : A → option B) (l : list A) i j x y b :
  NoDup (omap f l) → l !! i = Some x → l !! j = Some y →
  f x = Some b → f y = Some b → i = j.
Proof.
  revert i j. induction l as [|a l IH]; intros i j Hnd Hi Hj Hx Hy; [done |].
  cbn [omap list_omap] in Hnd.
  assert (∀ k z, l !! k = Some z → f z = Some b → b ∈ omap f l) as Hin.
  { intros k z Hk Hz. apply list_elem_of_omap. exists z. split; [| done].
    by eapply list_elem_of_lookup_2. }
  destruct i as [|i], j as [|j]; simpl in Hi, Hj.
  - done.
  - injection Hi as ->. rewrite Hx in Hnd. apply NoDup_cons in Hnd as [Hnot _].
    destruct Hnot. by eapply Hin.
  - injection Hj as ->. rewrite Hy in Hnd. apply NoDup_cons in Hnd as [Hnot _].
    destruct Hnot. by eapply Hin.
  - f_equal. apply IH; try done. destruct (f a); [by apply NoDup_cons in Hnd as [_ ?] | done].
Qed.

(** C3: after an open-rebuild (toggleSidebar(true): re-scan, merge, mark
    seen, render) no two rendered entries share a signature: the signatures
    of the entries are duplicate-free, so entries at two distinct positions
    of the list have different signatures. *)
Theorem open_rebuild_unique_signatures (toLower : jsstring → jsstring) (st : State) :
  NoDup (entrySigs (navListOf (toggleSidebar toLower true st)))
  ∧ ∀ (i j : nat) (e1 e2 : Entry) (s1 s2 : jsstring),
      i ≠ j →
      navListOf (toggleSidebar toLower true st) !! i = Some e1 →
      navListOf (toggleSidebar toLower true st) !! j = Some e2 →
      entrySig e1 = Some s1 → entrySig e2 = Some s2 → s1 ≠ s2.
Proof.
  rewrite toggleSidebar_open_eq. cbv zeta. unfold navListOf. cbn [sidebar navList].
  pose proof (openList_ok (getConversationKey (location st)) toLower (page st)) as [Hnd _].
  split; [exact Hnd |].
  intros i j e1 e2 s1 s2 Hij Hi Hj H1 H2 ->. apply Hij.
  by eapply (NoDup_omap_lookup entrySig).
Qed.





(** C6: while the panel is not displayed, the mutation-driven detection
    leaves the panel and its list as they are, and adds to the seen set of
    the current conversation the signatures of the messages it detected
    (scanned, not yet seen, kept by the merge); these were not in the set. *)
Theorem hidden_detection_is_silent (toLower : jsstring → jsstring) (st : State) :
  sidebarVisible st = false →
  sidebar (appendNewMessagesForCurrentConv toLower st) = sidebar st
  ∧ navListOf (appendNewMessagesForCurrentConv toLower st) = navListOf st
  ∧ seenOf (getConversationKey (location st))
      (convSeen (appendNewMessagesForCurrentConv toLower st))
    = seenOf (getConversationKey (location st)) (convSeen st)
      ∪ list_to_set (signature <$> detectedItems toLower st)
  ∧ (∀ it, it ∈ detectedItems toLower st →
       it ∈ (getAllMessagesForCurrentConv toLower st).1
       ∧ signature it ∉ seenOf (getConversationKey (location st)) (convSeen st)).
Proof.
  intros Hhidden. rewrite appendNew_eq. cbv zeta. unfold navListOf.
  cbn [sidebar convSeen]. rewrite Hhidden.
  assert (match unseenItems toLower st with [] => sidebar st | _ :: _ => sidebar st end
          = sidebar st) as -> by (by destruct (unseenItems toLower st)).
  split; [done |]. split; [done |].
  split; [apply markSeen_ensure_seenOf |].
  intros it Hin. unfold detectedItems in Hin.
  pose proof (uniqueOrdered_sublist (unseenItems toLower st)) as Hsub.
  apply (elem_of_sublist _ _ _ Hin) in Hsub. clear Hin. rename Hsub into Hin.
  unfold unseenItems in Hin. apply list_elem_of_filter in Hin as [Hnew Hscan].
  split; [exact Hscan |].
  intros Hseen.
  rewrite <- ensureConvSet_seenOf with (key := getConversationKey (location st)) in Hseen.
  apply seenHas_true in Hseen. congruence.
Qed.

Lemma hidden_detection_is_silent_witness :
  sidebar (appendNewMessagesForCurrentConv asciiLower (initialState locA hiPage)) = None
  ∧ lit "s_596f04" ∈ seenOf (lit "https://chatgpt.com/c/1")
      (convSeen (appendNewMessagesForCurrentConv asciiLower (initialState locA hiPage))).
Proof.
  destruct (hidden_detection_is_silent asciiLower (initialState locA hiPage))
    as (Hsb & _ & Hseen & _); [reflexivity |].
  split; [exact Hsb |].
  change (getConversationKey (location (initialState locA hiPage)))
    with (getConversationKey locA) in Hseen.
  replace (getConversationKey locA) with (lit "https://chatgpt.com/c/1") in Hseen
    by (vm_compute; reflexivity).
  rewrite Hseen. apply elem_of_union_r, elem_of_list_to_set.
  vm_compute. apply list_elem_of_here.
Defined.

(* ===================================================================== *)
(* The registry along the events                                          *)
(* ===================================================================== *)

Section Events.

Variable toLowerCase : jsstring → jsstring.

Implicit Types (st : State) (ev : Event) (evs : list Event).

Lemma regStep_refl key reg : regStep key reg reg.
Proof. split; [apply regLe_refl | done]. Qed.

Lemma regStep_mark key items reg :
  regStep key reg (markSeen key items (ensureConvSet key reg)).
Proof.
  split.
  - apply (regLe_trans _ (ensureConvSet key reg)); [apply ensureConvSet_le | apply markSeen_le].
  - intros k Hne. by rewrite markSeen_other, ensureConvSet_other.
Qed.

Lemma toggleSidebar_regStep (show : bool) st :
  regStep (getConversationKey (location st)) (convSeen st)
    (convSeen (toggleSidebar toLowerCase show st)).
Proof.
  destruct show.
  - rewrite toggleSidebar_open_eq. apply regStep_mark.
  - rewrite toggleSidebar_close_eq. apply regStep_refl.
Qed.

Lemma appendNew_regStep st :
  regStep (getConversationKey (location st)) (convSeen st)
    (convSeen (appendNewMessagesForCurrentConv toLowerCase st)).
Proof. rewrite appendNew_eq. apply regStep_mark. Qed.

Lemma initialSilentMark_regStep st :
  regStep (getConversationKey (location st)) (convSeen st)
    (convSeen (initialSilentMark toLowerCase st)).
Proof. rewrite initialSilentMark_eq. apply regStep_mark. Qed.

Lemma readyTick_regStep st :
  regStep (getConversationKey (location st)) (convSeen st)
    (convSeen (readyTick toLowerCase st)).
Proof.
  destruct (hasChatRoot (page st)) eqn:Hroot.
  - rewrite readyTick_found_eq by done. apply regStep_mark.
  - rewrite readyTick_missing_eq by done.
    destruct (MAX_ATTEMPTS <? S (attempts st))%nat; apply regStep_refl.
Qed.

Lemma convTick_regStep st :
  regStep (getConversationKey (location st)) (convSeen st)
    (convSeen (convTick toLowerCase st)).
Proof.
  destruct (decide (getConversationKey (location st) = lastConv st)) as [E|E].
  - rewrite convTick_same by done. apply regStep_refl.
  - rewrite convTick_changed_eq by done. apply regStep_mark.
Qed.

Lemma handle_regStep ev st :
  regStep (getConversationKey (location st)) (convSeen st)
    (convSeen (handle toLowerCase ev st)).
Proof.
  destruct ev; cbn [handle].
  - destruct (readyTimer st); [apply readyTick_regStep | apply regStep_refl].
  - destruct (installed st); apply regStep_refl.
  - destruct (debouncePending st); [| apply regStep_refl].
    apply (appendNew_regStep (setDebouncePending false st)).
  - destruct (installed st); [apply convTick_regStep | apply regStep_refl].
  - destruct (toggleBtn st); [apply toggleSidebar_regStep | apply regStep_refl].
  - destruct (sidebar st); [apply toggleSidebar_regStep | apply regStep_refl].
  - destruct (installed st), (sidebar st), (toggleBtn st);
      try apply regStep_refl. apply toggleSidebar_regStep.
  - destruct (installed st && escape); [apply toggleSidebar_regStep | apply regStep_refl].
  - apply regStep_refl.
  - apply regStep_refl.
Qed.

Lemma run_snoc evs ev st :
  run toLowerCase (evs ++ [ev]) st = handle toLowerCase ev (run toLowerCase evs st).
Proof. unfold run. by rewrite fold_left_app. Qed.

Lemma run_regLe evs st : regLe (convSeen st) (convSeen (run toLowerCase evs st)).
Proof.
  induction evs as [|ev evs IH] using rev_ind; [apply regLe_refl |].
  rewrite run_snoc. eapply regLe_trans; [exact IH |]. apply (proj1 (handle_regStep _ _)).
Qed.

End Events.

(** C9: the seen sets only grow.  ensureConvSet leaves a registry that
    already has a set for the key as it is; the silent mark, the
    mutation-driven detection, both toggles and the conversation tick keep
    every existing set and everything in it; so does every event, and along
    any sequence of events the set of every key only gains signatures. *)
Theorem seen_sets_only_grow (toLower : jsstring → jsstring) :
  (∀ reg key seen, reg !! key = Some seen → ensureConvSet key reg = reg)
  ∧ (∀ st, regLe (convSeen st) (convSeen (initialSilentMark toLower st)))
  ∧ (∀ st, regLe (convSeen st) (convSeen (appendNewMessagesForCurrentConv toLower st)))
  ∧ (∀ st show, regLe (convSeen st) (convSeen (toggleSidebar toLower show st)))
  ∧ (∀ st, regLe (convSeen st) (convSeen (convTick toLower st)))
  ∧ (∀ st ev, regLe (convSeen st) (convSeen (handle toLower ev st)))
  ∧ (∀ st evs key,
       seenOf key (convSeen st) ⊆ seenOf key (convSeen (run toLower evs st))).
Proof.
  split; [apply ensureConvSet_present |].
  split; [intros st; apply (proj1 (initialSilentMark_regStep toLower st)) |].
  split; [intros st; apply (proj1 (appendNew_regStep toLower st)) |].
  split; [intros st show; apply (proj1 (toggleSidebar_regStep toLower show st)) |].
  split; [intros st; apply (proj1 (convTick_regStep toLower st)) |].
  split; [intros st ev; apply (proj1 (handle_regStep toLower ev st)) |].
  intros st evs key. apply regLe_seenOf, run_regLe.
Qed.

(** C5 (as stated) fails: after a visit to conversation 1, a visit to
    conversation 2 and the return to conversation 1 with no message rendered
    yet, the conversation tick detects the change and the set it uses for
    the new key is the retained one: it still holds the signature of "hi",
    which no element of the page carries. *)
Lemma conversation_change_fresh_set_counterexample :
  getConversationKey (location revisitState) = lit "https://chatgpt.com/c/1"
  ∧ lastConv revisitState = lit "https://chatgpt.com/c/2"
  ∧ (getAllMessagesForCurrentConv asciiLower revisitState).1 = []
  ∧ elements (seenOf (lit "https://chatgpt.com/c/1")
                (convSeen (handle asciiLower ConvTick revisitState)))
    = [lit "s_" ++ strHashHex (lit "hi")].
Proof. repeat split; vm_compute; reflexivity. Qed.

(** C5 (amended): seen signatures are tracked per conversation key: no event
    changes the set of a key other than the current one.  On a detected
    conversation change every other key keeps its set, the set of the new
    key is the one it already had (a new empty one if it had none) extended
    with the signatures of the messages on the page, so that with no earlier
    set it holds exactly those, and the sidebar list is cleared. *)
Theorem seen_sets_per_conversation (toLower : jsstring → jsstring) (st : State) :
  (∀ ev k, k ≠ getConversationKey (location st) →
     convSeen (handle toLower ev st) !! k = convSeen st !! k)
  ∧ (installed st = true → getConversationKey (location st) ≠ lastConv st →
     let cur := getConversationKey (location st) in
     let st' := handle toLower ConvTick st in
     lastConv st' = cur
     ∧ (∀ k, k ≠ cur → convSeen st' !! k = convSeen st !! k)
     ∧ seenOf cur (convSeen st')
       = seenOf cur (convSeen st)
         ∪ list_to_set (signature <$> (getAllMessagesForCurrentConv toLower st).1)
     ∧ (convSeen st !! cur = None →
        seenOf cur (convSeen st')
        = list_to_set (signature <$> (getAllMessagesForCurrentConv toLower st).1))
     ∧ navListOf st' = []).
Proof.
  split.
  - intros ev k Hne. by apply (proj2 (handle_regStep toLower ev st)).
  - intros Hinst Hchanged. cbv zeta. cbn [handle]. rewrite Hinst.
    rewrite convTick_changed_eq by done. cbv zeta. unfold navListOf.
    cbn [lastConv convSeen sidebar].
    split; [done |].
    split; [intros k Hne; by rewrite markSeen_other, ensureConvSet_other |].
    split; [apply markSeen_ensure_seenOf |].
    split.
    + intros Hnone. rewrite markSeen_ensure_seenOf. unfold seenOf at 1.
      rewrite Hnone. simpl. set_solver.
    + by destruct (sidebar st).
Qed.

Lemma seen_sets_per_conversation_witness :
  lastConv (handle asciiLower ConvTick revisitState) = lit "https://chatgpt.com/c/1"
  ∧ navListOf (handle asciiLower ConvTick revisitState) = []
  ∧ convSeen (handle asciiLower ConvTick revisitState) !! lit "https://chatgpt.com/c/2"
    = convSeen revisitState !! lit "https://chatgpt.com/c/2".
Proof.
  destruct (proj2 (seen_sets_per_conversation asciiLower revisitState))
    as (Hlast & Hother & _ & _ & Hlist).
  - vm_compute. reflexivity.
  - vm_compute. discriminate.
  - split; [rewrite Hlast; vm_compute; reflexivity |].
    split; [exact Hlist |].
    apply Hother. vm_compute. discriminate.
Defined.

(* ===================================================================== *)
(* The readiness poll                                                     *)
(* ===================================================================== *)

Section Readiness.

Variable toLowerCase : jsstring → jsstring.

Implicit Types (st : State) (ev : Event) (evs : list Event).

Lemma countTicks_snoc evs ev :
  countTicks (evs ++ [ev]) = (countTicks evs + (if isReadyTick ev then 1 else 0))%nat.
Proof.
  unfold countTicks. rewrite filter_app, length_app. f_equal.
  destruct ev; reflexivity.
Qed.

Lemma polling_initial loc p : polling (initialState loc p).
Proof. unfold polling, MAX_ATTEMPTS. simpl. repeat split; try done. lia. Qed.

(* while polling, only the interval, the host and nothing else acts *)
Lemma polling_handle_other ev st :
  polling st → isReadyTick ev = false →
  polling (handle toLowerCase ev st)
  ∧ attempts (handle toLowerCase ev st) = attempts st.
Proof.
  intros (Ht & Ha & Hi & Hd & Hb & Hs & Hy & Hr & Hc) Hev.
  destruct ev; try discriminate; cbn [handle];
    rewrite ?Hi, ?Hd, ?Hb, ?Hs; cbn [andb];
    try (split; [by repeat split | done]).
Qed.

Lemma polling_tick_found st :
  polling st → hasChatRoot (page st) = true →
  wired (handle toLowerCase ReadyTick st).
Proof.
  intros (Ht & Ha & _) Hroot. cbn [handle]. rewrite Ht.
  rewrite readyTick_found_eq by done. cbv zeta. unfold wired.
  cbn [readyTimer attempts installed toggleBtn].
  repeat split; [lia | by eexists].
Qed.

Lemma polling_tick_missing st :
  polling st → hasChatRoot (page st) = false →
  (attempts st < MAX_ATTEMPTS →
     polling (handle toLowerCase ReadyTick st)
     ∧ attempts (handle toLowerCase ReadyTick st) = S (attempts st))%nat
  ∧ (attempts st = MAX_ATTEMPTS → gaveUp (handle toLowerCase ReadyTick st)).
Proof.
  intros (Ht & Ha & Hi & Hd & Hb & Hs & Hy & Hr & Hc) Hroot.
  cbn [handle]. rewrite Ht, readyTick_missing_eq by done. split.
  - intros Hlt. destruct (Nat.ltb_spec MAX_ATTEMPTS (S (attempts st))) as [?|_]; [lia |].
    split; [| done]. unfold polling. state_simpl. repeat split; try done; lia.
  - intros Heq. destruct (Nat.ltb_spec MAX_ATTEMPTS (S (attempts st))) as [_|?]; [| lia].
    unfold gaveUp. state_simpl. rewrite Hc, Heq. by repeat split.
Qed.

(* once the poll gave up nothing is left to react: only the host acts *)
Lemma gaveUp_handle ev st : gaveUp st → gaveUp (handle toLowerCase ev st).
Proof.
  intros (Ht & Ha & Hi & Hd & Hb & Hs & Hy & Hr & Hc).
  destruct ev; cbn [handle]; rewrite ?Ht, ?Hi, ?Hd, ?Hb, ?Hs; cbn [andb];
    by repeat split.
Qed.

Lemma wired_toggle (show : bool) st :
  wired st → wired (toggleSidebar toLowerCase show st).
Proof.
  intros (Ht & Ha & Hi & Hb). destruct show.
  - rewrite toggleSidebar_open_eq. by repeat split.
  - rewrite toggleSidebar_close_eq. by repeat split.
Qed.

Lemma wired_handle ev st : wired st → wired (handle toLowerCase ev st).
Proof.
  intros Hw. pose proof Hw as (Ht & Ha & Hi & Hb).
  destruct ev; cbn [handle]; rewrite ?Ht, ?Hi; try done.
  - destruct (debouncePending st); [| done].
    rewrite appendNew_eq. by repeat split.
  - destruct (decide (getConversationKey (location st) = lastConv st)) as [E|E].
    + by rewrite convTick_same.
    + rewrite convTick_changed_eq by done. by repeat split.
  - destruct (toggleBtn st); [by apply wired_toggle | done].
  - destruct (sidebar st); [by apply wired_toggle | done].
  - destruct (sidebar st), (toggleBtn st); try done. by apply wired_toggle.
  - destruct escape; cbn [andb]; [by apply wired_toggle | done].
Qed.

Lemma phase_run loc p evs :
  phase evs (run toLowerCase evs (initialState loc p)).
Proof.
  induction evs as [|ev evs IH] using rev_ind.
  - left. split; [apply polling_initial | done].
  - unfold phase in *. rewrite run_snoc, countTicks_snoc.
    set (st := run toLowerCase evs (initialState loc p)) in *.
    destruct IH as [[Hp Hn]|[[Hg Hn]|Hw]].
    + destruct (isReadyTick ev) eqn:Hev.
      * destruct ev; try discriminate.
        destruct (hasChatRoot (page st)) eqn:Hroot.
        { right. right. by apply polling_tick_found. }
        destruct (polling_tick_missing st Hp Hroot) as [Hlt Heq].
        pose proof Hp as (_ & Ha & _).
        destruct (decide (attempts st = MAX_ATTEMPTS)) as [E|E].
        { right. left. split; [by apply Heq | lia]. }
        left. destruct Hlt as [Hp' Ha']; [lia |]. split; [done | lia].
      * destruct (polling_handle_other ev st Hp Hev) as [Hp' Ha'].
        left. split; [done | lia].
    + right. left. split; [by apply gaveUp_handle | lia].
    + right. right. by apply wired_handle.
Qed.

End Readiness.

(** C8: the readiness poll (interval READY_POLL_MS = 250) ends in every
    execution.  While its timer is live it has fired once per due tick, at
    most MAX_ATTEMPTS = 40 times, and nothing is installed; once more than 40
    ticks were due the timer is cleared, so it is cleared within 41 * 250 ms;
    a tick that finds the chat root clears the timer at once and installs the
    handlers; the tick that exhausts the budget clears it and only logs the
    warning: no control, listener or observer exists, the registry is empty,
    and no later event changes that. *)
Theorem readiness_poll_terminates (toLower : jsstring → jsstring)
    (loc : Location) (p : list Node) (evs : list Event) :
  let st := run toLower evs (initialState loc p) in
  (readyTimer st = true →
     attempts st = countTicks evs ∧ (attempts st ≤ MAX_ATTEMPTS)%nat
     ∧ installed st = false)
  ∧ ((MAX_ATTEMPTS < countTicks evs)%nat → readyTimer st = false)
  ∧ (readyTimer st = false → installed st = true ∨ gaveUp st)
  ∧ (attempts st * READY_POLL_MS ≤ 41 * 250)%nat
  ∧ (readyTimer st = true → hasChatRoot (page st) = true →
       readyTimer (handle toLower ReadyTick st) = false
       ∧ installed (handle toLower ReadyTick st) = true)
  ∧ (readyTimer st = true → hasChatRoot (page st) = false →
       if (attempts st <? MAX_ATTEMPTS)%nat
       then readyTimer (handle toLower ReadyTick st) = true
       else gaveUp (handle toLower ReadyTick st))
  ∧ (gaveUp st → ∀ later, gaveUp (run toLower later st)).
Proof.
  cbv zeta. pose proof (phase_run toLower loc p evs) as Hphase.
  set (st := run toLower evs (initialState loc p)) in *.
  assert (readyTimer st = true → polling st ∧ attempts st = countTicks evs) as Hlive.
  { intros Ht. destruct Hphase as [H|[[Hg _]|Hw]]; [done | |].
    - destruct Hg as (Hf & _). congruence.
    - destruct Hw as (Hf & _). congruence. }
  split; [| split; [| split; [| split; [| split; [| split]]]]].
  - intros Ht. destruct (Hlive Ht) as [(_ & Ha & Hi & _) Hn]. done.
  - intros Hmany. destruct (readyTimer st) eqn:Ht; [| done].
    destruct (Hlive eq_refl) as [(_ & Ha & _) Hn]. lia.
  - intros Ht. destruct Hphase as [[(Hl & _) _]|[[Hg _]|Hw]]; [congruence | by right |].
    left. by destruct Hw as (_ & _ & Hi & _).
  - unfold READY_POLL_MS. apply Nat.mul_le_mono_r.
    destruct Hphase as [[(_ & Ha & _) _]|[[Hg _]|Hw]].
    + unfold MAX_ATTEMPTS in Ha. lia.
    + destruct Hg as (_ & Ha & _). unfold MAX_ATTEMPTS in Ha. lia.
    + destruct Hw as (_ & Ha & _). unfold MAX_ATTEMPTS in Ha. lia.
  - intros Ht Hroot. destruct (Hlive Ht) as [Hp _].
    destruct (polling_tick_found toLower st Hp Hroot) as (Hf & _ & Hi & _). done.
  - intros Ht Hroot. destruct (Hlive Ht) as [Hp _].
    destruct (polling_tick_missing toLower st Hp Hroot) as [Hlt Heq].
    pose proof Hp as (_ & Ha & _).
    destruct (Nat.ltb_spec (attempts st) MAX_ATTEMPTS) as [Hc|Hc].
    + by destruct (Hlt Hc) as [(Hl & _) _].
    + apply Heq. lia.
  - intros Hg later. induction later as [|ev later IH] using rev_ind; [done |].
    rewrite run_snoc. by apply gaveUp_handle.
Qed.

Lemma readiness_poll_terminates_witness :
  readyTimer (run asciiLower (replicate 41 ReadyTick) (initialState locA hiPage)) = false
  ∧ gaveUp (run asciiLower (replicate 41 ReadyTick) (initialState locA hiPage))
  ∧ readyTimer (run asciiLower (replicate 40 ReadyTick) (initialState locA hiPage)) = true.
Proof.
  pose proof (readiness_poll_terminates asciiLower locA hiPage (replicate 41 ReadyTick)) as H.
  cbv zeta in H. destruct H as (_ & Hoff & Hphase & _).
  assert (readyTimer (run asciiLower (replicate 41 ReadyTick) (initialState locA hiPage))
          = false) as Ht.
  { apply Hoff. vm_compute. lia. }
  split; [exact Ht |]. split.
  - destruct (Hphase Ht) as [Hi|Hg]; [| exact Hg]. vm_compute in Hi. discriminate.
  - vm_compute. reflexivity.
Defined.

(* ===================================================================== *)
(* Further properties: the hash                                           *)
(* ===================================================================== *)

Section Hash.

Implicit Types (n d : N) (acc s : jsstring).

Lemma hexDigit_value d : d < 16 → hexDigitValue (hexDigit d) = d.
Proof.
  intros Hd. unfold hexDigitValue, hexDigit.
  destruct (N.ltb_spec d 10).
  - destruct (N.ltb_spec (48 + d) 58); lia.
  - destruct (N.ltb_spec (87 + d) 58); lia.
Qed.

Lemma hexDigit_lower d : d < 16 → isLowerHex (hexDigit d) = true.
Proof.
  intros Hd. unfold isLowerHex, hexDigit.
  destruct (N.ltb_spec d 10).
  - apply orb_true_iff. left. apply andb_true_iff. split; apply N.leb_le; lia.
  - apply orb_true_iff. right. apply andb_true_iff. split; apply N.leb_le; lia.
Qed.

Lemma size_nat_bound n : n < 2 ^ N.of_nat (N.size_nat n).
Proof.
  destruct n as [|p]; [done |]. simpl N.size_nat.
  induction p as [p IH|p IH|]; cbn [Pos.size_nat];
    rewrite ?Nat2N.inj_succ, ?N.pow_succ_r'; lia.
Qed.

(* with enough fuel the digits read back as the number *)
Lemma hexDigits_value (fuel : nat) n acc :
  n < 2 ^ N.of_nat fuel →
  fold_left (λ v c, 16 * v + hexDigitValue c) (hexDigits fuel n acc) 0
  = fold_left (λ v c, 16 * v + hexDigitValue c) acc n.
Proof.
  revert n acc. induction fuel as [|fuel IH]; intros n acc Hn.
  - simpl in *. by replace n with 0 by lia.
  - cbn [hexDigits]. destruct (N.eqb_spec n 0) as [->|Hne]; [done |].
    rewrite IH.
    + cbn [fold_left]. rewrite hexDigit_value by (apply N.mod_lt; lia).
      f_equal. pose proof (N.div_mod n 16). lia.
    + rewrite Nat2N.inj_succ, N.pow_succ_r' in Hn.
      apply N.Div0.div_lt_upper_bound.
      assert (2 ^ N.of_nat fuel > 0) by (apply N.lt_gt, N.neq_0_lt_0, N.pow_nonzero; lia).
      lia.
Qed.

Lemma hexDigits_format (fuel k : nat) n acc :
  n < 16 ^ N.of_nat k → Forall (λ c, isLowerHex c = true) acc →
  (length (hexDigits fuel n acc) ≤ k + length acc)%nat
  ∧ Forall (λ c, isLowerHex c = true) (hexDigits fuel n acc).
Proof.
  revert k n acc. induction fuel as [|fuel IH]; intros k n acc Hn Hacc.
  - simpl. split; [lia | done].
  - cbn [hexDigits]. destruct (N.eqb_spec n 0) as [->|Hne]; [split; [lia | done] |].
    destruct k as [|k]; [simpl in Hn; lia |].
    rewrite Nat2N.inj_succ, N.pow_succ_r' in Hn.
    destruct (IH k (n / 16) (hexDigit (n mod 16) :: acc)) as [Hlen Hall].
    + apply N.Div0.div_lt_upper_bound. lia.
    + constructor; [| done]. apply hexDigit_lower, N.mod_lt. lia.
    + split; [simpl in Hlen; lia | done].
Qed.

Lemma hexDigits_nonempty (fuel : nat) n acc :
  n ≠ 0 → (0 < fuel)%nat → hexDigits fuel n acc ≠ [].
Proof.
  intros Hne Hfuel. destruct fuel as [|fuel]; [lia |]. cbn [hexDigits].
  destruct (N.eqb_spec n 0) as [?|_]; [done |].
  generalize (n / 16) (hexDigit (n mod 16)). clear. revert acc.
  induction fuel as [|fuel IH]; intros acc m d; [done |].
  cbn [hexDigits]. destruct (m =? 0); [done | apply IH].
Qed.

Lemma toString16_value n : hexValue (toString16 n) = n.
Proof.
  unfold hexValue, toString16. destruct (N.eqb_spec n 0) as [->|Hne]; [done |].
  rewrite hexDigits_value; [done | apply size_nat_bound].
Qed.

Lemma toUint32_bound (z : Z) : toUint32 z < 2 ^ 32.
Proof.
  unfold toUint32.
  pose proof (Z.mod_pos_bound z (2 ^ 32) ltac:(lia)) as [Hlo Hhi].
  apply N2Z.inj_lt. rewrite Z2N.id by done. exact Hhi.
Qed.

End Hash.

(** X1: strHashHex renders a 32-bit value: the result is never empty, has at
    most eight units, and every unit is one of 0-9, a-f. *)
Theorem strHashHex_format (str : jsstring) :
  hash32 str < 2 ^ 32
  ∧ strHashHex str ≠ []
  ∧ (length (strHashHex str) ≤ 8)%nat
  ∧ Forall (λ c, isLowerHex c = true) (strHashHex str).
Proof.
  change (strHashHex str) with (toString16 (hash32 str)).
  pose proof (toUint32_bound (fold_left hashStep str 5381%Z)) as Hb.
  fold (hash32 str) in Hb. split; [exact Hb |].
  unfold toString16. destruct (N.eqb_spec (hash32 str) 0) as [E|E].
  - split; [done |]. split; [simpl; lia | by repeat constructor].
  - split.
    + apply hexDigits_nonempty; [done |].
      destruct (hash32 str); [done |]. simpl. destruct p; simpl; lia.
    + destruct (hexDigits_format (N.size_nat (hash32 str)) 8 (hash32 str) [])
        as [Hlen Hall]; [exact Hb | constructor |].
      split; [simpl in Hlen; lia | done].
Qed.

(** X2: the hexadecimal rendering loses nothing: reading the digits of
    strHashHex back gives the 32-bit hash, so two texts get the same hash
    string, and the same computed signature, exactly when their 32-bit hashes
    are equal. *)
Theorem strHashHex_faithful (a b : jsstring) :
  hexValue (strHashHex a) = hash32 a
  ∧ (strHashHex a = strHashHex b ↔ hash32 a = hash32 b)
  ∧ (lit "s_" ++ strHashHex a = lit "s_" ++ strHashHex b ↔ hash32 a = hash32 b).
Proof.
  assert (∀ x, hexValue (strHashHex x) = hash32 x) as Hval.
  { intros x. change (strHashHex x) with (toString16 (hash32 x)).
    apply toString16_value. }
  assert (strHashHex a = strHashHex b ↔ hash32 a = hash32 b) as Hiff.
  { split.
    - intros H. rewrite <- (Hval a), <- (Hval b). by rewrite H.
    - intros H. change (toString16 (hash32 a) = toString16 (hash32 b)). by rewrite H. }
  split; [apply Hval |]. split; [exact Hiff |].
  rewrite <- Hiff. split; [apply app_inv_head | by intros ->].
Qed.

(* ===================================================================== *)
(* Further properties: whitespace normalisation                           *)
(* ===================================================================== *)

Section Whitespace.

Implicit Types (s r t : jsstring) (c : N) (b : bool).

Lemma replaceWsRuns_singleSpaced b s : singleSpaced b (replaceWsRuns b s) = true.
Proof.
  revert b. induction s as [|c r IH]; intros b; [done |].
  cbn [replaceWsRuns]. destruct (isWhiteSpace c) eqn:Hc.
  - destruct b; [apply IH |]. cbn [singleSpaced].
    replace (isWhiteSpace 32) with true by reflexivity. by rewrite IH.
  - cbn [singleSpaced]. by rewrite Hc.
Qed.

Lemma trimStart_singleSpaced b b' s :
  singleSpaced b s = true → singleSpaced b' (trimStart s) = true.
Proof.
  revert b. induction s as [|c r IH]; intros b; [done |].
  cbn [singleSpaced trimStart]. destruct (isWhiteSpace c) eqn:Hc.
  - intros H. apply andb_true_iff in H as [_ H]. by eapply IH.
  - intros H. cbn [singleSpaced]. by rewrite Hc.
Qed.

Lemma singleSpaced_app_l b s t :
  singleSpaced b (s ++ t) = true → singleSpaced b s = true.
Proof.
  revert b. induction s as [|c r IH]; intros b; [done |].
  cbn [app singleSpaced]. destruct (isWhiteSpace c); [| apply IH].
  intros H. apply andb_true_iff in H as [H1 H2]. rewrite H1. by eapply IH.
Qed.

(* trimStart removes a whitespace prefix *)
Lemma trimStart_split s :
  ∃ w, s = w ++ trimStart s ∧ Forall (λ c, isWhiteSpace c = true) w.
Proof.
  induction s as [|c r (w & Hw & Hall)]; [by exists [] |].
  cbn [trimStart]. destruct (isWhiteSpace c) eqn:Hc.
  - exists (c :: w). split; [simpl; by f_equal | by constructor].
  - by exists [].
Qed.

(* trimEnd removes a whitespace suffix *)
Lemma trimEnd_split s :
  ∃ w, s = trimEnd s ++ w ∧ Forall (λ c, isWhiteSpace c = true) w.
Proof.
  unfold trimEnd. destruct (trimStart_split (rev s)) as (w & Hw & Hall).
  exists (rev w). split.
  - rewrite <- rev_app_distr, <- Hw. by rewrite rev_involutive.
  - by apply Forall_rev.
Qed.

Lemma trimStart_startsClean s : startsClean (trimStart s) = true.
Proof.
  induction s as [|c r IH]; [done |]. cbn [trimStart].
  destruct (isWhiteSpace c) eqn:Hc; [done |]. simpl. by rewrite Hc.
Qed.

Lemma trimStart_clean s : startsClean s = true → trimStart s = s.
Proof.
  destruct s as [|c r]; [done |]. simpl. intros H. by apply negb_true_iff in H as ->.
Qed.

Lemma trimStart_snoc s c :
  isWhiteSpace c = false → trimStart (s ++ [c]) = trimStart s ++ [c].
Proof.
  intros Hc. induction s as [|d r IH]; simpl; [by rewrite Hc |].
  by destruct (isWhiteSpace d).
Qed.

Lemma trimEnd_startsClean s : startsClean s = true → startsClean (trimEnd s) = true.
Proof.
  destruct s as [|c r]; [done |]. simpl. intros Hc. apply negb_true_iff in Hc.
  unfold trimEnd. simpl rev. rewrite trimStart_snoc by done.
  rewrite rev_app_distr. simpl. by rewrite Hc.
Qed.

Lemma trimEnd_endsClean s : startsClean (rev (trimEnd s)) = true.
Proof. unfold trimEnd. rewrite rev_involutive. apply trimStart_startsClean. Qed.

Lemma trimEnd_clean s : startsClean (rev s) = true → trimEnd s = s.
Proof. intros H. unfold trimEnd. rewrite trimStart_clean by done. apply rev_involutive. Qed.

Lemma replaceWsRuns_fixed b s : singleSpaced b s = true → replaceWsRuns b s = s.
Proof.
  revert b. induction s as [|c r IH]; intros b; [done |].
  cbn [singleSpaced replaceWsRuns]. destruct (isWhiteSpace c).
  - intros H. apply andb_true_iff in H as [H Hr].
    apply andb_true_iff in H as [Hc Hb]. apply N.eqb_eq in Hc as ->.
    apply negb_true_iff in Hb as ->. by rewrite IH.
  - intros H. by rewrite IH.
Qed.

Lemma trimStart_all_ws s : Forall (λ c, isWhiteSpace c = true) s → trimStart s = [].
Proof. induction 1 as [|c r Hc _ IH]; [done |]. simpl. by rewrite Hc. Qed.

Lemma replaceWsRuns_all_ws b s :
  Forall (λ c, isWhiteSpace c = true) s →
  Forall (λ c, isWhiteSpace c = true) (replaceWsRuns b s).
Proof.
  intros H. revert b. induction H as [|c r Hc _ IH]; intros b; [done |].
  cbn [replaceWsRuns]. rewrite Hc. destruct b; [apply IH |].
  constructor; [done | apply IH].
Qed.

End Whitespace.

(** X3: the text normalizeText lower-cases is in normal form: its only
    whitespace units are single spaces, it neither begins nor ends with
    whitespace, collapsing and trimming it again changes nothing, and a text
    made of whitespace only normalizes to the empty text. *)
Theorem collapsedText_normal_form (s : jsstring) :
  singleSpaced false (collapsedText s) = true
  ∧ startsClean (collapsedText s) = true
  ∧ startsClean (rev (collapsedText s)) = true
  ∧ collapsedText (collapsedText s) = collapsedText s
  ∧ (Forall (λ c, isWhiteSpace c = true) s → collapsedText s = [])
  ∧ ∀ toLower, s ≠ [] → normalizeText toLower s = toLower (collapsedText s).
Proof.
  assert (singleSpaced false (collapsedText s) = true) as Hsp.
  { unfold collapsedText, trim, collapseWhitespace.
    destruct (trimEnd_split (trimStart (replaceWsRuns false s))) as (w & Hw & _).
    apply (singleSpaced_app_l _ _ w). rewrite <- Hw.
    eapply trimStart_singleSpaced, replaceWsRuns_singleSpaced. }
  assert (startsClean (collapsedText s) = true) as Hstart.
  { unfold collapsedText, trim. apply trimEnd_startsClean, trimStart_startsClean. }
  assert (startsClean (rev (collapsedText s)) = true) as Hend.
  { unfold collapsedText, trim. apply trimEnd_endsClean. }
  split; [exact Hsp |]. split; [exact Hstart |]. split; [exact Hend |].
  split; [| split].
  - unfold collapsedText at 1. unfold collapseWhitespace, trim.
    rewrite replaceWsRuns_fixed by done.
    rewrite trimStart_clean by done. by apply trimEnd_clean.
  - intros Hws. unfold collapsedText, trim, collapseWhitespace.
    rewrite trimStart_all_ws; [done |]. by apply replaceWsRuns_all_ws.
  - intros toLower Hne. unfold normalizeText, collapsedText. by destruct s.
Qed.

Lemma collapsedText_normal_form_witness :
  collapsedText (lit "  ") = []
  ∧ normalizeText asciiLower (lit " A  b ") = asciiLower (collapsedText (lit " A  b ")).
Proof.
  destruct (collapsedText_normal_form (lit "  ")) as (_ & _ & _ & _ & Hws & _).
  destruct (collapsedText_normal_form (lit " A  b ")) as (_ & _ & _ & _ & _ & Hlow).
  split.
  - apply Hws. by repeat constructor.
  - apply Hlow. discriminate.
Defined.

(* ===================================================================== *)
(* Further properties: the conversation key                               *)
(* ===================================================================== *)

Section ConversationKey.

Implicit Types (s cur piece : jsstring) (sep : N).





Lemma indexOf_lookup (x : jsstring) (arr : list jsstring) (i : nat) :
  indexOf x arr = Some i → arr !! i = Some x.
Proof.
  revert i. induction arr as [|y r IH]; intros i; [done |]. cbn [indexOf].
  destruct (eqb y x) eqn:E.
  - intros [= <-]. apply eqb_eq in E as ->. done.
  - destruct (indexOf x r) as [j|]; [| done]. intros [= <-]. by apply IH.
Qed.

End ConversationKey.



(* ===================================================================== *)
(* Further properties: the merge                                          *)
(* ===================================================================== *)

Section MergeShape.

Implicit Types (it a b : Item) (items : list Item).
Implicit Types (acc : list Item * list jsstring) (keys : list jsstring).

Lemma isDuplicate_false seenNorms key :
  isDuplicate seenNorms key = false → ∀ s, s ∈ seenNorms → ¬ prefixRelated s key.
Proof.
  intros Hd s Hin Hrel.
  assert (isDuplicate seenNorms key = true); [| congruence].
  apply isDuplicate_true. by exists s.
Qed.

Lemma pairwiseUnrelated_snoc keys key :
  pairwiseUnrelated keys → (∀ s, s ∈ keys → ¬ prefixRelated s key) →
  pairwiseUnrelated (keys ++ [key]).
Proof.
  intros Hkeys Hnew i j s t Hij Hi Hj.
  destruct (decide (j < length keys)%nat) as [Hlt|Hge].
  - rewrite lookup_app_l in Hi by lia. rewrite lookup_app_l in Hj by lia.
    exact (Hkeys i j s t Hij Hi Hj).
  - assert (j = length keys) as ->.
    { apply lookup_lt_Some in Hj. rewrite length_app in Hj. simpl in Hj. lia. }
    rewrite lookup_app_l in Hi by lia.
    rewrite lookup_app_r, Nat.sub_diag in Hj by lia. injection Hj as <-.
    apply Hnew. by eapply list_elem_of_lookup_2.
Qed.

Lemma uniqueStep_unrelated acc it :
  pairwiseUnrelated acc.2 → pairwiseUnrelated (uniqueStep acc it).2.
Proof.
  intros H. unfold uniqueStep. destruct (isDuplicate _ _) eqn:Hd; [done |].
  cbn [snd]. unfold normsAdd. rewrite (isDuplicate_false_notin _ _ Hd).
  apply pairwiseUnrelated_snoc; [done |]. by apply isDuplicate_false.
Qed.

Lemma uniqueLoop_unrelated items acc :
  pairwiseUnrelated acc.2 → pairwiseUnrelated (uniqueLoop items acc).2.
Proof.
  revert acc. induction items as [|it items IH]; intros acc H; [done |].
  rewrite uniqueLoop_cons. apply IH. by apply uniqueStep_unrelated.
Qed.

Lemma uniqueLoop_covers items acc it :
  it ∈ items → ∃ s, s ∈ (uniqueLoop items acc).2 ∧ prefixRelated s (matchKey it).
Proof.
  revert acc. induction items as [|x items IH]; intros acc Hin.
  - by apply elem_of_nil in Hin.
  - rewrite uniqueLoop_cons. apply elem_of_cons in Hin as [->|Hin]; [| by apply IH].
    destruct (uniqueStep_covers acc x) as (s & Hs & Hrel).
    exists s. split; [by apply uniqueLoop_norms_mono | done].
Qed.

(* items with pairwise unrelated keys all pass *)
Lemma uniqueLoop_all_kept items acc :
  keysOfAccepted acc → pairwiseUnrelated (acc.2 ++ (matchKey <$> items)) →
  uniqueLoop items acc = (acc.1 ++ items, acc.2 ++ (matchKey <$> items)).
Proof.
  revert acc. induction items as [|it items IH]; intros acc Hk Hun.
  - simpl. rewrite !app_nil_r. by destruct acc.
  - rewrite uniqueLoop_cons.
    assert (isDuplicate acc.2 (matchKey it) = false) as Hd.
    { apply not_true_is_false. intros (s & Hs & Hrel)%isDuplicate_true.
      apply list_elem_of_lookup_1 in Hs as (i & Hi).
      pose proof (lookup_lt_Some _ _ _ Hi) as Hlt.
      apply (Hun i (length acc.2) s (matchKey it)); [done | | | done].
      - by rewrite lookup_app_l.
      - rewrite lookup_app_r, Nat.sub_diag by lia. done. }
    assert (uniqueStep acc it = (acc.1 ++ [it], acc.2 ++ [matchKey it])) as ->.
    { unfold uniqueStep. rewrite Hd. unfold normsAdd.
      by rewrite (isDuplicate_false_notin _ _ Hd). }
    rewrite IH; cbn [fst snd].
    + by rewrite <- !app_assoc.
    + unfold keysOfAccepted in *. cbn [fst snd]. by rewrite fmap_app, Hk.
    + by rewrite <- app_assoc.
Qed.

Lemma uniqueOrdered_covers items it :
  it ∈ items →
  ∃ a, a ∈ uniqueOrdered items ∧ prefixRelated (matchKey a) (matchKey it).
Proof.
  intros Hin. destruct (uniqueLoop_covers items ([], []) it Hin) as (s & Hs & Hrel).
  rewrite (uniqueLoop_keys items ([], [])) in Hs by done.
  apply list_elem_of_fmap in Hs as (a & -> & Ha). by exists a.
Qed.

Lemma uniqueOrdered_head items : head (uniqueOrdered items) = head items.
Proof.
  destruct items as [|it rest]; [done |]. unfold uniqueOrdered.
  rewrite uniqueLoop_cons.
  destruct (uniqueLoop_sublist rest (uniqueStep ([], []) it)) as (kept & _ & ->).
  reflexivity.
Qed.

End MergeShape.

(** X5: what uniqueOrdered returns: the keys of the kept items are pairwise
    unrelated (none equals, prefixes or is prefixed by another), every input
    item is related to a kept one, the first item of a batch is always kept,
    and merging a merged batch again changes nothing. *)
Theorem uniqueOrdered_shape (items : list Item) :
  pairwiseUnrelated (matchKey <$> uniqueOrdered items)
  ∧ (∀ it, it ∈ items →
       ∃ a, a ∈ uniqueOrdered items ∧ prefixRelated (matchKey a) (matchKey it))
  ∧ head (uniqueOrdered items) = head items
  ∧ uniqueOrdered (uniqueOrdered items) = uniqueOrdered items.
Proof.
  assert (keysOfAccepted (uniqueLoop items ([], []))) as Hkeys
    by (by apply uniqueLoop_keys).
  assert (pairwiseUnrelated (matchKey <$> uniqueOrdered items)) as Hun.
  { unfold uniqueOrdered. rewrite <- Hkeys. apply uniqueLoop_unrelated.
    intros i j s t _ Hi. done. }
  split; [exact Hun |]. split; [| split].
  - intros it Hin. destruct (uniqueLoop_covers items ([], []) it Hin) as (s & Hs & Hrel).
    rewrite Hkeys in Hs. apply list_elem_of_fmap in Hs as (a & -> & Ha).
    by exists a.
  - apply uniqueOrdered_head.
  - unfold uniqueOrdered at 1.
    rewrite (uniqueLoop_all_kept (uniqueOrdered items) ([], [])); [done | done |].
    exact Hun.
Qed.

(* ===================================================================== *)
(* Further properties: what a scan leaves on the page and in the items    *)
(* ===================================================================== *)

Section ScanEffects.

Variable toLowerCase : jsstring → jsstring.

Implicit Types (node : Node) (it : Item) (p : list Node) (convKey : jsstring).

Lemma previewText_cases (raw : jsstring) :
  (length (previewText raw) ≤ 81)%nat
  ∧ ((length raw ≤ 80)%nat → previewText raw = raw)
  ∧ ((80 < length raw)%nat → previewText raw = take 80 raw ++ [8230]).
Proof.
  unfold previewText, slice0. destruct (Nat.ltb_spec 80 (length raw)) as [H|H].
  - split; [| split; [lia | done]].
    rewrite length_app, length_take. cbn [length]. lia.
  - split; [lia |]. split; [done | lia].
Qed.

End ScanEffects.

(** X13: a scan tags what it reads: the page keeps its length, and for every
    item the element it came from now carries the item's signature in
    data-nav-signature and the item's id as its id, both non-empty, so that
    the lookup by id made by the entry's click handler finds an element. *)
Theorem scan_tags_elements (toLower : jsstring → jsstring) (st : State) :
  length (page (getAllMessagesForCurrentConv toLower st).2) = length (page st)
  ∧ ∀ it, it ∈ (getAllMessagesForCurrentConv toLower st).1 →
      signature it ≠ [] ∧ id it ≠ []
      ∧ hasElementById (getAllMessagesForCurrentConv toLower st).2 (id it) = true
      ∧ ∃ node, page (getAllMessagesForCurrentConv toLower st).2 !! element it = Some node
                ∧ navSignature node = Some (signature it)
                ∧ nodeId node = id it.
Proof.
  unfold getAllMessagesForCurrentConv. cbn [fst snd page setPage].
  split; [apply scanFrom_length |].
  intros it Hin. apply scanFrom_item in Hin as (i & node & Hi & Hm & Hs).
  pose proof (scanFrom_page_matched toLower (getConversationKey (location st)) 0 _ _ _ Hi Hm)
    as Hpage.
  apply scanNode_item in Hs as [Hraw ->].
  rewrite scanNode_some in Hpage by done. cbv zeta in Hpage. cbn [snd] in Hpage.
  cbn [signature id element].
  set (sig := signatureFor node _) in *. set (nid := idFor _ node sig) in *.
  assert (sig ≠ []) as Hsig by apply signatureFor_nonempty.
  assert (nid ≠ []) as Hnid by apply idFor_nonempty.
  split; [done |]. split; [done |]. split.
  - unfold hasElementById. destruct nid as [|c nid'] eqn:E; [done |].
    apply orb_true_iff. left. cbn [page setPage]. apply existsb_exists.
    eexists. split; [apply list_elem_of_In; by eapply list_elem_of_lookup_2 |].
    cbn [nodeId]. apply eqb_refl.
  - eexists. split; [exact Hpage |]. done.
Qed.

(** X14: sizes of what a scan returns: the preview of an item has at most 81
    units, being the raw text when that has at most 80 units and else its
    first 80 units followed by an ellipsis; the normalized text is capped at
    400 units and the merge key at 200. *)
Theorem scanned_item_bounds (toLower : jsstring → jsstring) (st : State) (it : Item) :
  it ∈ (getAllMessagesForCurrentConv toLower st).1 →
  (length (text it) ≤ 81)%nat
  ∧ ((length (rawText it) ≤ 80)%nat → text it = rawText it)
  ∧ ((80 < length (rawText it))%nat → text it = take 80 (rawText it) ++ [8230])
  ∧ (length (norm it) ≤ 400)%nat
  ∧ (length (matchKey it) ≤ 200)%nat.
Proof.
  unfold getAllMessagesForCurrentConv. cbn [fst].
  intros Hin. apply scanFrom_item in Hin as (i & node & _ & _ & Hs).
  apply scanNode_item in Hs as [_ ->]. unfold matchKey. cbn [text rawText norm].
  destruct (previewText_cases (rawOf node)) as (H1 & H2 & H3).
  split; [done |]. split; [done |]. split; [done |].
  unfold slice0. rewrite !length_take. lia.
Qed.

Lemma scanned_item_bounds_witness :
  ∃ it, it ∈ (getAllMessagesForCurrentConv asciiLower (initialState locA longPage)).1
        ∧ length (text it) = 81%nat ∧ length (matchKey it) = 200%nat.
Proof.
  eexists. split; [vm_compute; apply list_elem_of_here |].
  match goal with |- length (text ?it) = _ ∧ _ =>
    destruct (scanned_item_bounds asciiLower (initialState locA longPage) it)
      as (_ & _ & Hlong & _)
  end.
  - vm_compute. apply list_elem_of_here.
  - split.
    + rewrite Hlong by (vm_compute; lia). vm_compute. reflexivity.
    + vm_compute. reflexivity.
Defined.

(* ===================================================================== *)
(* Further properties: invariants of the panel along the events          *)
(* ===================================================================== *)

Section PanelInvariants.

Variable toLowerCase : jsstring → jsstring.

Implicit Types (st : State) (ev : Event) (evs : list Event).

(* what an event can do to the list, with the registry it leaves *)
Lemma handle_navList_cases ev st :
  navListOf (handle toLowerCase ev st) = navListOf st
  ∨ navListOf (handle toLowerCase ev st) = []
  ∨ (navListOf (handle toLowerCase ev st)
       = openList (getConversationKey (location st)) toLowerCase (page st)
     ∧ convSeen (handle toLowerCase ev st)
       = markSeen (getConversationKey (location st))
           (uniqueOrdered (scannedItems toLowerCase st))
           (ensureConvSet (getConversationKey (location st)) (convSeen st)))
  ∨ (navListOf (handle toLowerCase ev st)
       = renderEntries (scannedPage toLowerCase st) (detectedItems toLowerCase st)
           (navListOf st)
     ∧ convSeen (handle toLowerCase ev st)
       = markSeen (getConversationKey (location st)) (detectedItems toLowerCase st)
           (ensureConvSet (getConversationKey (location st)) (convSeen st))).
Proof.
  assert (∀ show s,
    navListOf (toggleSidebar toLowerCase show s) = []
    ∨ (navListOf (toggleSidebar toLowerCase show s)
         = openList (getConversationKey (location s)) toLowerCase (page s)
       ∧ convSeen (toggleSidebar toLowerCase show s)
         = markSeen (getConversationKey (location s))
             (uniqueOrdered (scannedItems toLowerCase s))
             (ensureConvSet (getConversationKey (location s)) (convSeen s)))) as Htoggle.
  { intros [|] s.
    - right. by rewrite toggleSidebar_open_eq.
    - left. by rewrite toggleSidebar_close_eq. }
  destruct ev; cbn [handle].
  - destruct (readyTimer st); [| by left].
    destruct (hasChatRoot (page st)) eqn:Hroot.
    + rewrite readyTick_found_eq by done. by left.
    + rewrite readyTick_missing_eq by done.
      destruct (MAX_ATTEMPTS <? S (attempts st))%nat; by left.
  - destruct (installed st); by left.
  - destruct (debouncePending st); [| by left].
    rewrite appendNew_eq. cbv zeta. unfold navListOf at 1 2 3. cbn [sidebar convSeen].
    change (unseenItems toLowerCase (setDebouncePending false st))
      with (unseenItems toLowerCase st).
    change (detectedItems toLowerCase (setDebouncePending false st))
      with (detectedItems toLowerCase st).
    change (scannedPage toLowerCase (setDebouncePending false st))
      with (scannedPage toLowerCase st).
    change (sidebarVisible (setDebouncePending false st)) with (sidebarVisible st).
    change (navListOf (setDebouncePending false st)) with (navListOf st).
    change (sidebar (setDebouncePending false st)) with (sidebar st).
    destruct (unseenItems toLowerCase st); [by left |].
    destruct (sidebarVisible st); [| by left].
    right. right. right. done.
  - destruct (installed st); [| by left].
    destruct (decide (getConversationKey (location st) = lastConv st)) as [E|E].
    + rewrite convTick_same by done. by left.
    + rewrite convTick_changed_eq by done. right. left.
      unfold navListOf. cbn [sidebar]. by destruct (sidebar st).
  - destruct (toggleBtn st) as [expanded|]; [| by left].
    destruct (Htoggle (negb expanded) st) as [H|H]; [right; by left | right; right; by left].
  - destruct (sidebar st) eqn:E; [| by left].
    destruct (Htoggle false st) as [H|H]; [right; by left | right; right; by left].
  - destruct (installed st); [| by left].
    destruct (sidebar st) eqn:E, (toggleBtn st); try by left.
    destruct (Htoggle false st) as [H|H]; [right; by left | right; right; by left].
  - destruct (installed st && escape); [| by left].
    destruct (Htoggle false st) as [H|H]; [right; by left | right; right; by left].
  - by left.
  - by left.
Qed.

Lemma handle_entriesOk ev st :
  entriesOk (navListOf st) → entriesOk (navListOf (handle toLowerCase ev st)).
Proof.
  intros Hok. destruct (handle_navList_cases ev st) as [->|[->|[[-> _]|[-> _]]]].
  - done.
  - apply entriesOk_nil.
  - apply openList_ok.
  - by apply renderEntries_ok.
Qed.

Lemma seenOf_markSeen_elem key items reg it :
  it ∈ items → signature it ∈ seenOf key (markSeen key items (ensureConvSet key reg)).
Proof.
  intros Hin. rewrite markSeen_ensure_seenOf. apply elem_of_union_r, elem_of_list_to_set.
  by apply list_elem_of_fmap_2.
Qed.

Lemma handle_shownAreSeen ev st :
  shownAreSeen st → shownAreSeen (handle toLowerCase ev st).
Proof.
  intros Hinv s Hs.
  assert (∀ key, s ∈ seenOf key (convSeen st) →
                 s ∈ seenOf key (convSeen (handle toLowerCase ev st))) as Hmono.
  { intros key. apply regLe_seenOf. apply (proj1 (handle_regStep toLowerCase ev st)). }
  destruct (handle_navList_cases ev st) as [E|[E|[[E Hreg]|[E Hreg]]]];
    rewrite E in Hs.
  - destruct (Hinv s Hs) as (key & Hkey). exists key. by apply Hmono.
  - by apply elem_of_nil in Hs.
  - exists (getConversationKey (location st)). rewrite Hreg.
    apply list_elem_of_omap in Hs as (e & He & Hsig).
    unfold openList in He. cbv zeta in He.
    destruct (length _ =? 0)%nat;
      [apply list_elem_of_singleton in He as ->; done |].
    apply renderEntries_from in He as [He|(q & Hq & ->)];
      [by apply elem_of_nil in He |].
    injection Hsig as <-. by apply seenOf_markSeen_elem.
  - apply list_elem_of_omap in Hs as (e & He & Hsig).
    apply renderEntries_from in He as [He|(q & Hq & ->)].
    + destruct (Hinv s) as (key & Hkey).
      { apply list_elem_of_omap. by exists e. }
      exists key. by apply Hmono.
    + exists (getConversationKey (location st)). rewrite Hreg.
      injection Hsig as <-. by apply seenOf_markSeen_elem.
Qed.

Lemma toggleSidebar_ariaAgrees (show : bool) st :
  ariaAgrees (toggleSidebar toLowerCase show st).
Proof.
  destruct show.
  - by rewrite toggleSidebar_open_eq.
  - by rewrite toggleSidebar_close_eq.
Qed.

Lemma handle_ariaAgrees ev st :
  ariaAgrees st → ariaAgrees (handle toLowerCase ev st).
Proof.
  intros Hinv. destruct ev; cbn [handle]; try done.
  - destruct (readyTimer st); [| done].
    destruct (hasChatRoot (page st)) eqn:Hroot.
    + rewrite readyTick_found_eq by done. unfold ariaAgrees in *.
      cbn [sidebar toggleBtn]. destruct (sidebar st); [| done]. by rewrite Hinv.
    + rewrite readyTick_missing_eq by done.
      by destruct (MAX_ATTEMPTS <? S (attempts st))%nat.
  - by destruct (installed st).
  - destruct (debouncePending st); [| done].
    rewrite appendNew_eq. cbv zeta. unfold ariaAgrees in *. cbn [sidebar toggleBtn].
    change (sidebarVisible (setDebouncePending false st)) with (sidebarVisible st).
    change (sidebar (setDebouncePending false st)) with (sidebar st).
    change (toggleBtn (setDebouncePending false st)) with (toggleBtn st).
    destruct (unseenItems _ _); [done |].
    unfold sidebarVisible. destruct (sidebar st) as [[[| |] entries]|]; done.
  - destruct (installed st); [| done].
    destruct (decide (getConversationKey (location st) = lastConv st)) as [E|E].
    + by rewrite convTick_same.
    + rewrite convTick_changed_eq by done. unfold ariaAgrees in *.
      cbn [sidebar toggleBtn]. by destruct (sidebar st).
  - destruct (toggleBtn st); [apply toggleSidebar_ariaAgrees | done].
  - destruct (sidebar st) eqn:E; [apply toggleSidebar_ariaAgrees |].
    unfold ariaAgrees. by rewrite E.
  - destruct (installed st); [| done].
    destruct (sidebar st) eqn:E, (toggleBtn st) eqn:E2;
      try apply toggleSidebar_ariaAgrees; exact Hinv.
  - destruct (installed st && escape); [apply toggleSidebar_ariaAgrees | done].
Qed.

Lemma run_invariant (P : State → Prop) evs st :
  (∀ ev s, P s → P (handle toLowerCase ev s)) → P st → P (run toLowerCase evs st).
Proof.
  intros Hstep Hst. induction evs as [|ev evs IH] using rev_ind; [done |].
  rewrite run_snoc. by apply Hstep.
Qed.

End PanelInvariants.

(** X6: whatever happens on the page (ticks, mutations, clicks, key presses,
    re-renders, navigation, in any order), the panel never shows two entries
    with the same signature, and every entry's DOM id is "cgpn-item-"
    followed by its signature. *)
Theorem panel_never_shows_signature_twice (toLower : jsstring → jsstring)
    (loc : Location) (p : list Node) (evs : list Event) :
  NoDup (entrySigs (navListOf (run toLower evs (initialState loc p))))
  ∧ ∀ i lbl q, NavItem i lbl q ∈ navListOf (run toLower evs (initialState loc p)) →
      i = itemDomIdOf (signature q).
Proof.
  apply (run_invariant toLower (λ s, entriesOk (navListOf s))).
  - intros ev s. apply handle_entriesOk.
  - apply entriesOk_nil.
Qed.

(** X7: along any sequence of events, every signature shown in the panel is
    recorded in the seen set of some conversation: nothing is rendered
    without being marked seen. *)
Theorem panel_shows_only_seen (toLower : jsstring → jsstring)
    (loc : Location) (p : list Node) (evs : list Event) (s : jsstring) :
  s ∈ entrySigs (navListOf (run toLower evs (initialState loc p))) →
  ∃ key, s ∈ seenOf key (convSeen (run toLower evs (initialState loc p))).
Proof.
  revert s. apply (run_invariant toLower shownAreSeen).
  - intros ev st. apply handle_shownAreSeen.
  - intros s Hs. by apply elem_of_nil in Hs.
Qed.

Lemma panel_shows_only_seen_witness :
  ∃ key, lit "s_596f04"
         ∈ seenOf key (convSeen (run asciiLower [ReadyTick; ClickToggle]
                                   (initialState locA (mainNode :: hiPage)))).
Proof.
  apply (panel_shows_only_seen asciiLower locA (mainNode :: hiPage)
           [ReadyTick; ClickToggle] (lit "s_596f04")).
  vm_compute. apply list_elem_of_here.
Defined.

(** X9: along any sequence of events, once the panel exists the toggle's
    aria-expanded is "true" exactly when the panel's display is "block". *)
Theorem aria_expanded_tracks_display (toLower : jsstring → jsstring)
    (loc : Location) (p : list Node) (evs : list Event) (sb : Sidebar) :
  sidebar (run toLower evs (initialState loc p)) = Some sb →
  toggleBtn (run toLower evs (initialState loc p))
  = Some (match display sb with DisplayBlock => true | _ => false end)
  ∧ sidebarVisible (run toLower evs (initialState loc p))
    = (match display sb with DisplayBlock => true | _ => false end).
Proof.
  intros Hsb.
  pose proof (run_invariant toLower ariaAgrees evs (initialState loc p)
                (handle_ariaAgrees toLower) I) as Hinv.
  unfold ariaAgrees, sidebarVisible in *. rewrite Hsb in *. done.
Qed.

Lemma aria_expanded_tracks_display_witness :
  toggleBtn (run asciiLower [ReadyTick; ClickToggle; KeyDown true]
               (initialState locA (mainNode :: hiPage))) = Some false.
Proof.
  apply (aria_expanded_tracks_display asciiLower locA (mainNode :: hiPage)
           [ReadyTick; ClickToggle; KeyDown true] (mkSidebar DisplayNone [])).
  vm_compute. reflexivity.
Defined.

(* ===================================================================== *)
(* Further properties: how detection composes with marking and opening   *)
(* ===================================================================== *)

Section Detection.

Variable toLowerCase : jsstring → jsstring.

Implicit Types (st : State) (it : Item) (items : list Item).

Lemma filter_none {A} (P : A → Prop) `{∀ x, Decision (P x)} (l : list A) :
  (∀ x, x ∈ l → ¬ P x) → filter P l = [].
Proof.
  induction l as [|x l IH]; intros Hall; [done |].
  rewrite filter_cons_False by (apply Hall, list_elem_of_here).
  apply IH. intros y Hy. apply Hall. by apply list_elem_of_further.
Qed.

Lemma renderEntries_prefix p items (l : list Entry) :
  l `prefix_of` renderEntries p items l.
Proof.
  revert l. induction items as [|q rest IH]; intros l; [done |].
  cbn [renderEntries]. destruct (pageHasId _ _ || listHasId _ _); [apply IH |].
  etrans; [| apply IH]. by apply prefix_app_r.
Qed.

(* a state whose page is already tagged and whose messages are all seen is
   left alone by the detection *)
Lemma appendNew_nothing_new st :
  scannedPage toLowerCase st = page st →
  is_Some (convSeen st !! getConversationKey (location st)) →
  (∀ it, it ∈ scannedItems toLowerCase st →
     signature it ∈ seenOf (getConversationKey (location st)) (convSeen st)) →
  appendNewMessagesForCurrentConv toLowerCase st = st.
Proof.
  intros Hpage [seen Hkey] Hseen. rewrite appendNew_eq. cbv zeta.
  assert (unseenItems toLowerCase st = []) as Hnone.
  { unfold unseenItems. apply filter_none. intros it Hin Hfalse.
    pose proof (Hseen it Hin) as Hs.
    rewrite <- (ensureConvSet_seenOf (convSeen st) (getConversationKey (location st))) in Hs.
    apply seenHas_true in Hs. congruence. }
  unfold detectedItems. rewrite Hnone, Hpage.
  change (uniqueOrdered []) with (@nil Item). cbn [markSeen fold_left].
  rewrite (ensureConvSet_present _ _ _ Hkey). by destruct st.
Qed.

Lemma scannedItems_of_scanned st st' :
  location st' = location st → page st' = scannedPage toLowerCase st →
  scannedItems toLowerCase st' = scannedItems toLowerCase st
  ∧ scannedPage toLowerCase st' = scannedPage toLowerCase st.
Proof.
  intros Hloc Hpage. unfold scannedItems, scannedPage in *.
  by rewrite Hloc, Hpage, scanFrom_idem.
Qed.

End Detection.

(** X8: the silent mark leaves nothing for the detection: run right after
    initialSilentMark on an unchanged page, appendNewMessagesForCurrentConv
    changes nothing at all; in particular, after the tick that finds the chat
    root, a mutation followed by the debounce firing leaves the whole state
    as it was. *)
Theorem detection_after_silent_mark (toLower : jsstring → jsstring) :
  (∀ st, appendNewMessagesForCurrentConv toLower (initialSilentMark toLower st)
         = initialSilentMark toLower st)
  ∧ (∀ loc p, hasChatRoot p = true →
       run toLower [ReadyTick; Mutation; DebounceFire] (initialState loc p)
       = run toLower [ReadyTick] (initialState loc p)).
Proof.
  assert (∀ st, appendNewMessagesForCurrentConv toLower (initialSilentMark toLower st)
                = initialSilentMark toLower st) as Hsilent.
  { intros st.
    destruct (scannedItems_of_scanned toLower st (initialSilentMark toLower st))
      as [Hitems Hpage]; [by rewrite initialSilentMark_eq ..|].
    apply appendNew_nothing_new.
    - rewrite Hpage. by rewrite initialSilentMark_eq.
    - rewrite initialSilentMark_eq. cbv zeta. cbn [convSeen location].
      rewrite markSeen_lookup, ensureConvSet_lookup. by eexists.
    - rewrite Hitems. intros it Hin. rewrite initialSilentMark_eq. cbv zeta.
      cbn [convSeen location]. by apply seenOf_markSeen_elem. }
  split; [exact Hsilent |].
  intros loc p Hroot. unfold run. cbn [fold_left].
  assert (handle toLower ReadyTick (initialState loc p)
          = readyTick toLower (initialState loc p)) as -> by reflexivity.
  rewrite (readyTick_found_eq toLower (initialState loc p) Hroot). cbv zeta.
  set (st1 := mkState _ _ _ _ _ _ _ _ _ _ _ _).
  change (appendNewMessagesForCurrentConv toLower st1 = st1).
  destruct (scannedItems_of_scanned toLower (initialState loc p) st1)
    as [Hitems Hpage]; [done | done |].
  apply appendNew_nothing_new.
  - by rewrite Hpage.
  - cbn [convSeen location st1]. rewrite markSeen_lookup, ensureConvSet_lookup. by eexists.
  - rewrite Hitems. intros it Hin. cbn [convSeen location st1].
    by apply seenOf_markSeen_elem.
Qed.

(** X10: opening marks only the messages the merge kept: a scanned message
    that the merge absorbed, whose signature was not seen before and differs
    from every kept one, is still unseen after the open, with the panel
    displayed.  The next mutation-driven detection then has a non-empty
    batch: it detects the first unseen message in document order, marks
    every detected message seen, and the absorbed message is either detected
    itself or absorbed again by a detected message whose key is related to
    its own; it is detected itself when no other unseen message has a key
    related to its own. *)
Theorem absorbed_message_stays_unseen (toLower : jsstring → jsstring) (st : State)
    (it : Item) :
  it ∈ (getAllMessagesForCurrentConv toLower st).1 →
  signature it ∉ seenOf (getConversationKey (location st)) (convSeen st) →
  signature it ∉ signature <$> uniqueOrdered (getAllMessagesForCurrentConv toLower st).1 →
  it ∈ unseenItems toLower (toggleSidebar toLower true st)
  ∧ sidebarVisible (toggleSidebar toLower true st) = true
  ∧ (∃ first, head (unseenItems toLower (toggleSidebar toLower true st)) = Some first
              ∧ head (detectedItems toLower (toggleSidebar toLower true st)) = Some first)
  ∧ (∃ a, a ∈ detectedItems toLower (toggleSidebar toLower true st)
          ∧ prefixRelated (matchKey a) (matchKey it))
  ∧ (∀ a, a ∈ detectedItems toLower (toggleSidebar toLower true st) →
       signature a ∈ seenOf (getConversationKey (location st))
         (convSeen (appendNewMessagesForCurrentConv toLower
                      (toggleSidebar toLower true st))))
  ∧ ((∀ a, a ∈ unseenItems toLower (toggleSidebar toLower true st) →
        a = it ∨ ¬ prefixRelated (matchKey a) (matchKey it)) →
     it ∈ detectedItems toLower (toggleSidebar toLower true st)).
Proof.
  intros Hin Hold Hkept.
  destruct (scannedItems_of_scanned toLower st (toggleSidebar toLower true st))
    as [Hitems _]; [by rewrite toggleSidebar_open_eq ..|].
  assert (location (toggleSidebar toLower true st) = location st) as Hloc
    by (by rewrite toggleSidebar_open_eq).
  assert (it ∈ unseenItems toLower (toggleSidebar toLower true st)) as Hun.
  { unfold unseenItems. rewrite Hitems. apply list_elem_of_filter. split; [| exact Hin].
    apply not_true_is_false. intros Hs%seenHas_true.
    rewrite ensureConvSet_seenOf in Hs. rewrite toggleSidebar_open_eq in Hs.
    cbv zeta in Hs. cbn [convSeen location] in Hs.
    rewrite markSeen_ensure_seenOf in Hs.
    apply elem_of_union in Hs as [Hs|Hs]; [done |].
    by apply elem_of_list_to_set in Hs. }
  destruct (uniqueOrdered_covers _ _ Hun) as (a & Ha & Hrel).
  split; [exact Hun |]. split; [by rewrite toggleSidebar_open_eq |].
  split; [| split; [| split]].
  - unfold detectedItems. rewrite uniqueOrdered_head.
    destruct (unseenItems toLower (toggleSidebar toLower true st)) as [|first rest];
      [by apply elem_of_nil in Hun | by exists first].
  - by exists a.
  - intros b Hb. rewrite appendNew_eq. cbv zeta. cbn [convSeen]. rewrite Hloc.
    by apply seenOf_markSeen_elem.
  - intros Hnone.
    assert (a ∈ unseenItems toLower (toggleSidebar toLower true st)) as Ha'.
    { eapply elem_of_sublist; [exact Ha | apply uniqueOrdered_sublist]. }
    destruct (Hnone a Ha') as [->|Hno]; [exact Ha | done].
Qed.

Lemma absorbed_message_stays_unseen_witness :
  ∃ it, it ∈ unseenItems asciiLower (toggleSidebar asciiLower true (initialState locA hiPage))
        ∧ rawText it = lit "hi there"
        ∧ length (navListOf (toggleSidebar asciiLower true (initialState locA hiPage))) = 1%nat
        ∧ length (navListOf (appendNewMessagesForCurrentConv asciiLower
                               (toggleSidebar asciiLower true (initialState locA hiPage))))
          = 2%nat.
Proof.
  destruct (absorbed_message_stays_unseen asciiLower (initialState locA hiPage)
              (mkItem (lit "s_210e520a") (lit "cgpn-https://chatgpt.com/c/1-s_210e520a")
                 (lit "hi there") (lit "hi there") (lit "hi there") 1))
    as [Hunseen _].
  - vm_compute. apply list_elem_of_further, list_elem_of_here.
  - vm_compute. discriminate.
  - vm_compute. intros H%list_elem_of_singleton. discriminate.
  - eexists. split; [exact Hunseen |].
    split; [reflexivity |]. split; vm_compute; reflexivity.
Defined.

(** X11: a burst of mutations is one detection: with the observer installed,
    any positive number of mutation callbacks followed by the debounce timer
    firing, and firing again, leaves the state one mutation and one firing
    leave; the timer does nothing when no mutation armed it. *)
Theorem debounce_coalesces_mutations (toLower : jsstring → jsstring) (st : State)
    (n : nat) :
  installed st = true →
  run toLower (replicate (S n) Mutation ++ [DebounceFire; DebounceFire]) st
  = run toLower [Mutation; DebounceFire] st
  ∧ debouncePending (run toLower [Mutation; DebounceFire] st) = false
  ∧ (debouncePending st = false → handle toLower DebounceFire st = st).
Proof.
  intros Hinst.
  assert (∀ k s, installed s = true →
            run toLower (replicate (S k) Mutation) s = setDebouncePending true s) as Hburst.
  { induction k as [|k IH]; intros s Hs.
    - unfold run. cbn [replicate fold_left handle]. by rewrite Hs.
    - change (run toLower (replicate (S (S k)) Mutation) s)
        with (run toLower (replicate (S k) Mutation) (handle toLower Mutation s)).
      cbn [handle]. rewrite Hs, IH by (by destruct s). by destruct s. }
  assert (debouncePending (run toLower [Mutation; DebounceFire] st) = false) as Hoff.
  { unfold run. cbn [fold_left handle]. rewrite Hinst.
    cbn [debouncePending setDebouncePending]. by rewrite appendNew_eq. }
  split; [| split; [exact Hoff |]].
  - replace (replicate (S n) Mutation ++ [DebounceFire; DebounceFire])
      with ((replicate (S n) Mutation ++ [DebounceFire]) ++ [DebounceFire])
      by (by rewrite <- app_assoc).
    rewrite run_snoc, run_snoc, Hburst by done.
    assert (handle toLower DebounceFire (setDebouncePending true st)
            = run toLower [Mutation; DebounceFire] st) as ->.
    { unfold run. cbn [fold_left handle]. by rewrite Hinst. }
    cbn [handle]. by rewrite Hoff.
  - intros Hd. cbn [handle]. by rewrite Hd.
Qed.

Lemma debounce_coalesces_mutations_witness :
  run asciiLower (replicate 3 Mutation ++ [DebounceFire; DebounceFire])
    (run asciiLower [ReadyTick] (initialState locA (mainNode :: hiPage)))
  = run asciiLower [Mutation; DebounceFire]
      (run asciiLower [ReadyTick] (initialState locA (mainNode :: hiPage))).
Proof.
  destruct (debounce_coalesces_mutations asciiLower
              (run asciiLower [ReadyTick] (initialState locA (mainNode :: hiPage))) 2)
    as [Hsame _]; [vm_compute; reflexivity | exact Hsame].
Defined.

(** X12: the mutation-driven detection only appends: the entries the panel
    had are still there, in the same order, at the front of the list, and
    every entry added belongs to a detected message. *)
Theorem detection_only_appends (toLower : jsstring → jsstring) (st : State) :
  navListOf st `prefix_of` navListOf (appendNewMessagesForCurrentConv toLower st)
  ∧ ∀ e, e ∈ navListOf (appendNewMessagesForCurrentConv toLower st) →
      e ∈ navListOf st
      ∨ ∃ q, q ∈ detectedItems toLower st
             ∧ e = NavItem (itemDomIdOf (signature q)) (labelOf q) q.
Proof.
  rewrite appendNew_eq. cbv zeta. unfold navListOf at 2 3. cbn [sidebar].
  destruct (unseenItems toLower st); [split; [done | by left] |].
  destruct (sidebarVisible st) eqn:Hvis; [| split; [done | by left]].
  cbn [navList]. split; [apply renderEntries_prefix |].
  intros e He. by apply renderEntries_from in He.
Qed.

(* ===================================================================== *)
(* Further properties: the id-based revision of the scanner               *)
(* ===================================================================== *)

Section IdBasedScanner.

Import IdBased.

Implicit Types (n : Node) (p : list Node) (q : Question) (sel : Node → bool).

Lemma assignId_cases now index n :
  (nodeId n = [] ∧ nodeId (assignId now index n) ≠ [] ∨ assignId now index n = n)
  ∧ nodeId (assignId now index n) ≠ []
  ∧ isUserMessage (assignId now index n) = isUserMessage n
  ∧ isFallback (assignId now index n) = isFallback n
  ∧ trimmedText (assignId now index n) = trimmedText n.
Proof.
  unfold assignId. destruct (nodeId n) eqn:E.
  - split; [left; by split |]. by repeat split.
  - split; [by right |]. repeat split; by rewrite ?E.
Qed.

Lemma assignId_idem now now' index index' n :
  assignId now' index' (assignId now index n) = assignId now index n.
Proof.
  destruct (assignId_cases now index n) as (_ & Hne & _).
  unfold assignId at 1. by destruct (nodeId (assignId now index n)).
Qed.

Lemma assignId_keeps now index n : nodeId n ≠ [] → assignId now index n = n.
Proof. unfold assignId. by destruct (nodeId n). Qed.

Lemma mapFrom_ext now sel sel' index pos p :
  (∀ n, sel n = sel' n) →
  mapFrom now sel index pos p = mapFrom now sel' index pos p.
Proof.
  intros Hext. revert index pos. induction p as [|n rest IH]; intros index pos; [done |].
  cbn [mapFrom]. rewrite <- Hext. destruct (sel n); by rewrite IH.
Qed.

(* scanning the scanned page again, at any time, reads the same items and
   writes nothing *)
Lemma mapFrom_again now now' sel index index' pos p :
  (∀ n t k, sel (assignId t k n) = sel n) →
  mapFrom now' sel index' pos (mapFrom now sel index pos p).2
  = mapFrom now sel index pos p.
Proof.
  intros Hsel. revert index index' pos.
  induction p as [|n rest IH]; intros index index' pos; [done |].
  cbn [mapFrom]. destruct (sel n) eqn:Hn; cbn [fst snd mapFrom].
  - rewrite Hsel, Hn, assignId_idem. cbv zeta. by rewrite IH.
  - by rewrite Hn, IH.
Qed.

Lemma mapFrom_existsb now sel index pos p (f : Node → bool) :
  (∀ n t k, f (assignId t k n) = f n) →
  existsb f (mapFrom now sel index pos p).2 = existsb f p.
Proof.
  intros Hf. revert index pos. induction p as [|n rest IH]; intros index pos; [done |].
  cbn [mapFrom]. destruct (sel n); cbn [snd existsb]; by rewrite ?Hf, IH.
Qed.

Lemma selects_assignId p n t k : selects p (assignId t k n) = selects p n.
Proof.
  destruct (assignId_cases t k n) as (_ & _ & Hu & Hf & Ht).
  unfold selects. by rewrite Hu, Hf, Ht.
Qed.

Lemma selects_scanned now p n :
  selects (getAllMessages now p).2 n = selects p n.
Proof.
  unfold selects, getAllMessages at 1. rewrite mapFrom_existsb; [done |].
  intros m t k. by destruct (assignId_cases t k m) as (_ & _ & -> & _).
Qed.

Lemma getAllMessages_again now now' p :
  getAllMessages now' (getAllMessages now p).2 = getAllMessages now p.
Proof.
  unfold getAllMessages at 1.
  rewrite (mapFrom_ext _ _ (selects p)) by apply selects_scanned.
  apply mapFrom_again. intros n t k. apply selects_assignId.
Qed.

(* where an item comes from *)
Lemma mapFrom_item now sel index pos p q :
  q ∈ (mapFrom now sel index pos p).1 →
  ∃ i n, p !! i = Some n ∧ sel n = true ∧ qelement q = (pos + i)%nat
         ∧ qrawText q = trimmedText n ∧ qrawText q ≠ []
         ∧ qtext q = preview60 (trimmedText n)
         ∧ qid q ≠ []
         ∧ ∃ n', (mapFrom now sel index pos p).2 !! i = Some n' ∧ nodeId n' = qid q.
Proof.
  revert index pos. induction p as [|n rest IH]; intros index pos; cbn [mapFrom].
  - by intros ?%elem_of_nil.
  - assert (∀ k (r : Node), q ∈ (mapFrom now sel k (S pos) rest).1 →
              ∃ i m, (n :: rest) !! i = Some m ∧ sel m = true ∧ qelement q = (pos + i)%nat
                ∧ qrawText q = trimmedText m ∧ qrawText q ≠ []
                ∧ qtext q = preview60 (trimmedText m) ∧ qid q ≠ []
                ∧ ∃ n', (r :: (mapFrom now sel k (S pos) rest).2) !! i = Some n'
                        ∧ nodeId n' = qid q) as Hrest.
    { intros k r Hin. destruct (IH _ _ Hin) as (i & m & Hi & Hm & He & Hr & Hne & Ht & Hid & Hn').
      exists (S i), m. repeat split; try done. lia. }
    destruct (sel n) eqn:Hn; cbn [fst snd]; [| by apply Hrest].
    destruct (assignId_cases now index n) as (_ & Hidne & _ & _ & Htxt).
    destruct (trimmedText (assignId now index n)) as [|c raw] eqn:Hraw; [by apply Hrest |].
    intros [->|Hin]%elem_of_cons; [| by apply Hrest].
    exists 0%nat, n. cbn [qelement qrawText qtext qid]. rewrite <- Htxt.
    repeat split; try done; try lia. by eexists.
Qed.

Lemma mapFrom_page now sel index pos p i n :
  p !! i = Some n →
  ∃ k, (mapFrom now sel index pos p).2 !! i
       = Some (if sel n then assignId now k n else n).
Proof.
  revert index pos i. induction p as [|m rest IH]; intros index pos i; [done |].
  cbn [mapFrom]. destruct i as [|i].
  - intros [= ->]. exists index. by destruct (sel n).
  - intros Hi. destruct (sel m); cbn [snd]; by apply IH.
Qed.

Lemma mapFrom_length now sel index pos p :
  length (mapFrom now sel index pos p).2 = length p.
Proof.
  revert index pos. induction p as [|n rest IH]; intros index pos; [done |].
  cbn [mapFrom]. destruct (sel n); cbn [snd length]; by rewrite IH.
Qed.

End IdBasedScanner.

(** X15: the earlier scanner falls back to the broad selector only when the
    page has no user-message element at all: every item comes from an
    element it selects, with that element's trimmed text, which is not empty,
    and a non-empty id; when a user-message element exists all items come
    from user-message elements, so a page whose user-message elements are
    all empty yields nothing whatever else it contains. *)
Theorem id_scanner_selection (now : N) (p : list Node) :
  (∀ q, q ∈ (IdBased.getAllMessages now p).1 →
     ∃ n, p !! IdBased.qelement q = Some n
          ∧ IdBased.selects p n = true
          ∧ IdBased.qrawText q = IdBased.trimmedText n
          ∧ IdBased.qrawText q ≠ [] ∧ IdBased.qid q ≠ []
          ∧ (existsb isUserMessage p = true → isUserMessage n = true)
          ∧ (existsb isUserMessage p = false → IdBased.isFallback n = true))
  ∧ (existsb isUserMessage p = true →
     (∀ n, n ∈ p → isUserMessage n = true → IdBased.trimmedText n = []) →
     (IdBased.getAllMessages now p).1 = []).
Proof.
  assert (∀ q, q ∈ (IdBased.getAllMessages now p).1 →
     ∃ n, p !! IdBased.qelement q = Some n
          ∧ IdBased.selects p n = true
          ∧ IdBased.qrawText q = IdBased.trimmedText n
          ∧ IdBased.qrawText q ≠ [] ∧ IdBased.qid q ≠ []
          ∧ (existsb isUserMessage p = true → isUserMessage n = true)
          ∧ (existsb isUserMessage p = false → IdBased.isFallback n = true)) as Hitems.
  { intros q Hin. unfold IdBased.getAllMessages in Hin.
    apply mapFrom_item in Hin as (i & n & Hi & Hsel & He & Hr & Hne & _ & Hid & _).
    exists n. rewrite He. repeat split; try done.
    - intros Hany. unfold IdBased.selects in Hsel. by rewrite Hany in Hsel.
    - intros Hnone. unfold IdBased.selects in Hsel. rewrite Hnone in Hsel.
      by apply andb_true_iff in Hsel as [? _]. }
  split; [exact Hitems |].
  intros Hany Hempty.
  destruct (IdBased.getAllMessages now p).1 as [|q l] eqn:E; [done |].
  destruct (Hitems q) as (n & Hn & _ & Hraw & Hne & _ & Hu & _); [apply list_elem_of_here |].
  destruct Hne. rewrite Hraw. apply Hempty; [by eapply list_elem_of_lookup_2 | by apply Hu].
Qed.

Lemma id_scanner_selection_witness :
  (IdBased.getAllMessages 1700000000000
     [userMessageNode (lit "  ");
      mkNode (lit "article") None [] None (Some (lit "an answer")) None []]).1 = [].
Proof.
  apply (proj2 (id_scanner_selection 1700000000000
    [userMessageNode (lit "  ");
     mkNode (lit "article") None [] None (Some (lit "an answer")) None []])).
  - reflexivity.
  - intros n [->|[->|Hin%elem_of_nil]%elem_of_cons]%elem_of_cons; try done.
Defined.

(** X16: in the earlier scanner a scan is stable and a full scan leaves
    nothing new: scanning the page a scan left, at any later time, returns
    the same items and changes no element, and after scanAndMarkAll the
    page has no new message for getNewMessages. *)
Theorem id_scan_then_nothing_new (now later : N) (seenKeys : gset jsstring)
    (p : list Node) :
  IdBased.getAllMessages later (IdBased.getAllMessages now p).2
  = IdBased.getAllMessages now p
  ∧ (∀ q, q ∈ (IdBased.scanAndMarkAll now seenKeys p).1.1 →
       IdBased.qid q ∈ (IdBased.scanAndMarkAll now seenKeys p).1.2)
  ∧ seenKeys ⊆ (IdBased.scanAndMarkAll now seenKeys p).1.2
  ∧ IdBased.getNewMessages later (IdBased.scanAndMarkAll now seenKeys p).1.2
      (IdBased.scanAndMarkAll now seenKeys p).2
    = ([], (IdBased.scanAndMarkAll now seenKeys p).2).
Proof.
  assert (∀ (l : list IdBased.Question) (seen : gset jsstring),
            seen ⊆ fold_left (λ s m, s ∪ {[IdBased.qid m]}) l seen
            ∧ ∀ q, q ∈ l → IdBased.qid q ∈ fold_left (λ s m, s ∪ {[IdBased.qid m]}) l seen)
    as Hfold.
  { induction l as [|m l IH]; intros seen; cbn [fold_left].
    - split; [done | by intros q ?%elem_of_nil].
    - destruct (IH (seen ∪ {[IdBased.qid m]})) as [Hsub Hall]. split; [set_solver |].
      intros q [->|Hin]%elem_of_cons; [set_solver | by apply Hall]. }
  split; [apply getAllMessages_again |].
  unfold IdBased.scanAndMarkAll, IdBased.getNewMessages. cbv zeta. cbn [fst snd].
  destruct (Hfold (IdBased.getAllMessages now p).1 seenKeys) as [Hsub Hall].
  split; [exact Hall |]. split; [exact Hsub |].
  rewrite getAllMessages_again. f_equal.
  apply filter_none. intros q Hq Hnot. by apply Hnot, Hall.
Qed.

(** X17: the earlier scanner never overwrites an id: an element that has an
    id keeps it, an element outside the selection is untouched, and every
    item's id is the id its element carries after the scan. *)
Theorem id_scanner_ids (now : N) (p : list Node) :
  length (IdBased.getAllMessages now p).2 = length p
  ∧ (∀ i n, p !! i = Some n → nodeId n ≠ [] ∨ IdBased.selects p n = false →
       (IdBased.getAllMessages now p).2 !! i = Some n)
  ∧ (∀ q, q ∈ (IdBased.getAllMessages now p).1 →
       ∃ n', (IdBased.getAllMessages now p).2 !! IdBased.qelement q = Some n'
             ∧ nodeId n' = IdBased.qid q).
Proof.
  unfold IdBased.getAllMessages. split; [| split].
  - apply mapFrom_length.
  - intros i n Hi Hcase.
    destruct (mapFrom_page now (IdBased.selects p) 0 0 p i n Hi) as (k & ->).
    destruct Hcase as [Hid|Hsel].
    + rewrite assignId_keeps by done. by destruct (IdBased.selects p n).
    + by rewrite Hsel.
  - intros q Hin.
    apply mapFrom_item in Hin as (i & n & _ & _ & He & _ & _ & _ & _ & Hn').
    by rewrite He.
Qed.

Lemma id_scanner_ids_witness :
  (IdBased.getAllMessages 5
     [mkNode (lit "div") None [] (Some (lit "user-message")) (Some (lit "hi")) None
        (lit "kept")]).2 !! 0%nat
  = Some (mkNode (lit "div") None [] (Some (lit "user-message")) (Some (lit "hi")) None
            (lit "kept")).
Proof.
  apply (proj1 (proj2 (id_scanner_ids 5
    [mkNode (lit "div") None [] (Some (lit "user-message")) (Some (lit "hi")) None
       (lit "kept")]))).
  - reflexivity.
  - left. discriminate.
Defined.

